(** * Waveform synthesis and 16-bit PCM encoding

    Shallow embedding of [_exercice_version_prof.py]: channel
    interleaving, time axis, sine / square / overtone generators, peak
    normalisation and the float <-> little-endian int16 codec.

    Number model.  A NumPy [float64] is a value of [float]: a real number or
    one of the IEEE special values NaN, +inf, -inf.  The special values
    follow the IEEE rules that NumPy applies, so that division by a zero peak
    and the NaN that follows are visible; the two IEEE zeros are identified.
    Finite arithmetic comes in two forms.  The functions at top level compute
    finite results exactly; they carry the properties that rounding does not
    touch (structure, lengths of encodings, symmetries, special values).  The
    functions of the module [Rounded] pass every finite result through the
    rounding of the format, known by its laws only, and give the time axis
    the limits NumPy puts on a length; they carry the properties that
    rounding, overflow or these limits decide (number of samples, the
    integer a sample is truncated to, overflow of the phase, the peak after
    normalisation).
    Python exceptions are values of [exn], carried by [result]. *)

From Stdlib Require Import Reals ZArith List Bool Lia Lra.
From Stdlib.Strings Require Import Byte.
From Stdlib.Strings Require String.
Import ListNotations.
Import String.StringSyntax.

Open Scope R_scope.

(** ** Exceptions and results *)

Inductive exn : Type :=
| ValueError
| MemoryError.

Inductive result (A : Type) : Type :=
| Ok (a : A)
| Raise (e : exn).

Arguments Ok {A} a.
Arguments Raise {A} e.

Definition bind {A B : Type} (r : result A) (k : A -> result B) : result B :=
  match r with
  | Ok a => k a
  | Raise e => Raise e
  end.

Notation "x <- r ;; k" := (bind r (fun x => k))
  (at level 61, r at next level, right associativity).

(** ** float64 values *)

Inductive float : Type :=
| NaN
| PInf
| NInf
| Fin (r : R).

Definition Signal := list float.

Definition Rltb (x y : R) : bool := if Rlt_dec x y then true else false.
Definition Reqb (x y : R) : bool := if Req_dec_T x y then true else false.

(** [inf_of neg] is -inf when [neg] holds and +inf otherwise. *)
Definition inf_of (neg : bool) : float := if neg then NInf else PInf.

Definition fmul (x y : float) : float :=
  match x, y with
  | NaN, _ | _, NaN => NaN
  | Fin a, Fin b => Fin (a * b)
  | PInf, PInf | NInf, NInf => PInf
  | PInf, NInf | NInf, PInf => NInf
  | PInf, Fin b | Fin b, PInf =>
      if Reqb b 0 then NaN else inf_of (Rltb b 0)
  | NInf, Fin b | Fin b, NInf =>
      if Reqb b 0 then NaN else inf_of (negb (Rltb b 0))
  end.

(** Division as NumPy does it: a zero divisor gives an infinity or NaN (with
    a warning), never an exception. *)
Definition fdiv (x y : float) : float :=
  match x, y with
  | NaN, _ | _, NaN => NaN
  | Fin a, Fin b =>
      if Reqb b 0
      then (if Reqb a 0 then NaN else inf_of (Rltb a 0))
      else Fin (a / b)
  | Fin _, PInf | Fin _, NInf => Fin 0
  | PInf, Fin b => inf_of (Rltb b 0)
  | NInf, Fin b => inf_of (negb (Rltb b 0))
  | _, _ => NaN
  end.

Definition fadd (x y : float) : float :=
  match x, y with
  | NaN, _ | _, NaN => NaN
  | Fin a, Fin b => Fin (a + b)
  | PInf, NInf | NInf, PInf => NaN
  | PInf, _ | _, PInf => PInf
  | NInf, _ | _, NInf => NInf
  end.

(** [np.abs] *)
Definition fabs (x : float) : float :=
  match x with
  | NaN => NaN
  | PInf | NInf => PInf
  | Fin a => Fin (Rabs a)
  end.

(** [np.sign] *)
Definition fsign (x : float) : float :=
  match x with
  | NaN => NaN
  | PInf => Fin 1
  | NInf => Fin (-1)
  | Fin a => if Rltb a 0 then Fin (-1) else if Rltb 0 a then Fin 1 else Fin 0
  end.

(** [np.sin] *)
Definition fsin (x : float) : float :=
  match x with
  | Fin a => Fin (sin a)
  | _ => NaN
  end.

(** The comparison [x > y]; false as soon as a NaN is involved. *)
Definition fgt (x y : float) : bool :=
  match x, y with
  | NaN, _ | _, NaN => false
  | PInf, PInf => false
  | PInf, _ => true
  | _, PInf => false
  | NInf, _ => false
  | Fin _, NInf => true
  | Fin a, Fin b => Rltb b a
  end.

(** ** Constants *)

Definition SAMPLING_FREQ : Z := 44100.
Definition SAMPLE_WIDTH : Z := 16.
Definition MAX_INT_SAMPLE_VALUE : Z := 2 ^ (SAMPLE_WIDTH - 1) - 1.

(** ** Channel interleaving *)

Section Interleave.
Context {A : Type}.

(** One round of [zip]: ask every iterator for its next item; the round
    fails as soon as one of them is exhausted. *)
Fixpoint next_all (its : list (list A)) : option (list A * list (list A)) :=
  match its with
  | [] => Some ([], [])
  | [] :: _ => None
  | (x :: it) :: rest =>
      match next_all rest with
      | Some (xs, rest') => Some (x :: xs, it :: rest')
      | None => None
      end
  end.

Fixpoint zip_rounds (fuel : nat) (its : list (list A)) : list (list A) :=
  match fuel with
  | O => []
  | S k =>
      match next_all its with
      | Some (frame, its') => frame :: zip_rounds k its'
      | None => []
      end
  end.

(** [zip] over the unpacked channels: no argument gives no tuple at all; otherwise tuples
    are produced until the shortest argument runs out, which takes at most
    as many rounds as the first argument has items. *)
Definition zip_star (channels : list (list A)) : list (list A) :=
  match channels with
  | [] => []
  | c :: _ => zip_rounds (length c) channels
  end.

(** From [l], keep one item, drop [step - 1], keep one, ...; [skip] items
    are dropped before the first one kept. *)
Fixpoint take_every (step skip : nat) (l : list A) : list A :=
  match l with
  | [] => []
  | x :: r =>
      match skip with
      | O => x :: take_every step (step - 1) r
      | S k => take_every step k r
      end
  end.

(** The extended slice [l[start::step]] for [step >= 1] (a zero step
    raises in Python; [separate_channels] never asks for one, since
    [range(0)] is empty). *)
Definition slice_from_step (l : list A) (start step : nat) : list A :=
  take_every step 0 (skipn start l).

End Interleave.

(** [np.fromiter(..., float)] of the flattened tuples. *)
Definition merge_channels (channels : list Signal) : Signal :=
  concat (zip_star channels).

(** [range(n)]: empty when [n <= 0]. *)
Definition range (n : Z) : list nat := seq 0 (Z.to_nat n).

Definition separate_channels (samples : Signal) (num_channels : Z)
  : list Signal :=
  map (fun i => slice_from_step samples i (Z.to_nat num_channels))
      (range num_channels).

(** ** Time axis *)

(** Smallest integer not below [r]. *)
Definition Rceil (r : R) : Z := (- Int_part (- r))%Z.

(** [np.arange(0, stop)] for a float [stop]: the floats 0, 1, 2, ... below
    [stop], that is [ceil(stop)] of them (none when [stop <= 0]).  NumPy
    cannot compute a length from NaN or from an infinity: it raises
    ValueError for both. *)
Definition np_arange (stop : float) : result Signal :=
  match stop with
  | NaN => Raise ValueError
  | PInf | NInf => Raise ValueError
  | Fin r => Ok (map (fun i => Fin (INR i)) (seq 0 (Z.to_nat (Rceil r))))
  end.

Definition generate_sample_time_points (duration : float) : result Signal :=
  points <- np_arange (fmul duration (Fin (IZR SAMPLING_FREQ))) ;;
  Ok (map (fun p => fdiv p (Fin (IZR SAMPLING_FREQ))) points).

(** ** Waveform generators *)

Definition np_pi : float := Fin PI.

Definition sine (freq amplitude duration : float) : result Signal :=
  time_points <- generate_sample_time_points duration ;;
  Ok (map (fun t => fmul amplitude
                      (fsin (fmul (fmul (fmul freq (Fin 2)) np_pi) t)))
          time_points).

Definition square (freq amplitude duration : float) : result Signal :=
  s <- sine freq (Fin 1) duration ;;
  Ok (map (fun y => fmul amplitude (fsign y)) s).

(** [np.add(signal, overtone, out=signal)] on one-dimensional arrays: equal
    lengths add item by item, a one-item [overtone] is broadcast, and any
    other pair of shapes is rejected. *)
Definition np_add_out (signal overtone : Signal) : result Signal :=
  if Nat.eqb (length overtone) (length signal)
  then Ok (map (fun p => fadd (fst p) (snd p)) (combine signal overtone))
  else match overtone with
       | [o] => Ok (map (fun s => fadd s o) signal)
       | _ => Raise ValueError
       end.

(** The body of the [for] loop of [sine_with_overtones], run over the
    remaining overtones. *)
Fixpoint add_overtones (root_freq amplitude duration : float)
    (overtones : list (float * float)) (signal : Signal) : result Signal :=
  match overtones with
  | [] => Ok signal
  | (freq_factor, amp_factor) :: rest =>
      overtone <- sine (fmul root_freq freq_factor)
                       (fmul amplitude amp_factor) duration ;;
      signal' <- np_add_out signal overtone ;;
      add_overtones root_freq amplitude duration rest signal'
  end.

Definition sine_with_overtones (root_freq amplitude : float)
    (overtones : list (float * float)) (duration : float) : result Signal :=
  signal <- sine root_freq amplitude duration ;;
  add_overtones root_freq amplitude duration overtones signal.

(** ** Normalisation *)

(** The builtin [max] over an iterable: the first item, replaced by each
    later item that compares greater; an empty iterable is a [ValueError]. *)
Definition py_max (l : Signal) : result float :=
  match l with
  | [] => Raise ValueError
  | x :: r => Ok (fold_left (fun m item => if fgt item m then item else m) r x)
  end.

Definition normalize (samples : Signal) (norm_target : float)
  : result Signal :=
  let abs_samples := map fabs samples in
  max_sample <- py_max abs_samples ;;
  let coeff := fdiv norm_target max_sample in
  Ok (map (fun s => fmul coeff s) samples).

(** ** PCM codec *)

(** [np.clip(x, lo, hi)], that is [minimum(maximum(x, lo), hi)]. *)
Definition np_clip (x : float) (lo hi : R) : float :=
  match x with
  | NaN => NaN
  | PInf => Fin hi
  | NInf => Fin (Rmin lo hi)
  | Fin a => Fin (Rmin (Rmax a lo) hi)
  end.

(** Truncation toward zero, as the C conversion of a double to an
    integer. *)
Definition Rtrunc (r : R) : Z :=
  if Rle_dec 0 r then Int_part r else (- Int_part (- r))%Z.

Definition wrap_int16 (z : Z) : Z := ((z + 32768) mod 65536 - 32768)%Z.

Definition byte_of_Z (z : Z) : byte :=
  match Byte.of_N (Z.to_N (z mod 256)) with
  | Some b => b
  | None => x00
  end.

(** The two bytes of a 16-bit integer, low byte first. *)
Definition int16_to_le (k : Z) : list byte :=
  let u := (k mod 65536)%Z in [byte_of_Z u; byte_of_Z (u / 256)].

Definition int16_of_le (lo hi : byte) : Z :=
  let u := (Z.of_N (Byte.to_N lo) + 256 * Z.of_N (Byte.to_N hi))%Z in
  if (u <? 32768)%Z then u else (u - 65536)%Z.

(** [ndarray.tobytes] of an [<i2] array. *)
Definition tobytes (ints : list Z) : list byte := flat_map int16_to_le ints.

(** [np.frombuffer(bytes, dtype="<i2")]: a buffer of odd size is refused. *)
Fixpoint frombuffer_i2 (bs : list byte) : result (list Z) :=
  match bs with
  | [] => Ok []
  | [_] => Raise ValueError
  | lo :: hi :: rest =>
      ints <- frombuffer_i2 rest ;;
      Ok (int16_of_le lo hi :: ints)
  end.

Section Codec.
(** What the platform's conversion yields for a value that has no int16
    image (NaN, an infinity, a magnitude beyond the int16 range): C leaves
    it undefined, so it is a parameter of the model. *)
Variable invalid_cast : float -> Z.

(** [astype("<i2")] *)
Definition astype_i2 (x : float) : Z :=
  match x with
  | Fin r =>
      let k := Rtrunc r in
      if ((-32768 <=? k) && (k <=? 32767))%Z then k
      else wrap_int16 (invalid_cast x)
  | _ => wrap_int16 (invalid_cast x)
  end.

Definition convert_to_bytes (samples : Signal) : list byte :=
  let clipped := map (fun s => np_clip s (-1) 1) samples in
  let int_samples :=
    map (fun c => astype_i2 (fmul c (Fin (IZR MAX_INT_SAMPLE_VALUE))))
        clipped in
  tobytes int_samples.

End Codec.

Definition convert_to_samples (bytes : list byte) : result Signal :=
  int_samples <- frombuffer_i2 bytes ;;
  Ok (map (fun k => fdiv (Fin (IZR k)) (Fin (IZR MAX_INT_SAMPLE_VALUE)))
          int_samples).

(** ** Driver *)





Section Driver.
Variable invalid_cast : float -> Z.




Open Scope string_scope.


Close Scope string_scope.

End Driver.

(** ** Notions used to state the properties *)

(** Length of the shortest channel (0 when there is no channel). *)
Fixpoint min_length {A : Type} (channels : list (list A)) : nat :=
  match channels with
  | [] => 0
  | c :: rest =>
      match rest with
      | [] => length c
      | _ :: _ => Nat.min (length c) (min_length rest)
      end
  end.

(** Peak of a real signal: the largest absolute value (0 for no sample). *)
Fixpoint Rmax_abs (l : list R) : R :=
  match l with
  | [] => 0
  | x :: r => Rmax (Rabs x) (Rmax_abs r)
  end.

(** Python's [round] of a float to an integer: to nearest, ties to even. *)
Definition py_round (r : R) : Z :=
  let n := Int_part r in
  let f := frac_part r in
  if Rlt_dec f (1 / 2) then n
  else if Rlt_dec (1 / 2) f then (n + 1)%Z
  else if Z.even n then n else (n + 1)%Z.

(** The value of a two-byte little-endian word, read as unsigned. *)
Definition le16_unsigned (lo hi : byte) : Z :=
  (Z.of_N (Byte.to_N lo) + 256 * Z.of_N (Byte.to_N hi))%Z.

(** Number of samples of a signal lasting [d] seconds. *)
Definition sample_count (d : R) : nat :=
  Z.to_nat (Rceil (d * IZR SAMPLING_FREQ)).



(** A real sample limited to [-1, 1]. *)
Definition clipped (x : R) : R :=
  if Rlt_dec x (-1) then -1 else if Rlt_dec 1 x then 1 else x.

(** The sample limited to [-1, 1]: an infinity is limited like any other
    value, NaN alone has no image. *)
Definition clip_value (s : float) : option R :=
  match s with
  | NaN => None
  | PInf => Some 1
  | NInf => Some (-1)
  | Fin x => Some (clipped x)
  end.

(** [k] is [y] with its fractional part dropped. *)
Definition truncates_toward_zero (y : R) (k : Z) : Prop :=
  Rabs (IZR k) <= Rabs y < Rabs (IZR k) + 1 /\ 0 <= IZR k * y.





(** The real value of a finite float (0 for the others). *)
Definition val_of (x : float) : R :=
  match x with
  | Fin r => r
  | _ => 0
  end.

(** ** Rounding-aware arithmetic

    The definitions above compute on finite values exactly.  That is enough
    for what does not depend on how a result is rounded, and it is wrong as
    soon as rounding or overflow decides the outcome (the number of samples
    of a duration, the integer a sample is truncated to, a frequency whose
    phase overflows).  The module [Rounded] embeds the same functions once
    more with every finite arithmetic result passed through the rounding of
    the format, of which only the laws listed in [platform] are used: they
    all hold of IEEE binary64 with round-to-nearest. *)

Definition fopp (x : float) : float :=
  match x with
  | NaN => NaN
  | PInf => NInf
  | NInf => PInf
  | Fin a => Fin (- a)
  end.

(** Order of the extended reals; NaN is comparable with nothing. *)
Definition fle (x y : float) : Prop :=
  match x, y with
  | NaN, _ | _, NaN => False
  | NInf, _ => True
  | _, PInf => True
  | Fin a, Fin b => a <= b
  | _, _ => False
  end.

Module Rounded.

(** What the functions take from the machine they run on.  [rnd x] is the
    double that the exact result [x] of an operation is rounded to, an
    infinity when [x] overflows; [libm_sin] is the sine of the math library
    on finite doubles; [max_samples] is the longest array of doubles that
    the process finds memory for (at most [2^53] of them, 64 PiB, the whole
    of the largest user address space of today's processors); [intp_of_2_63] is the result of the C
    conversion of the double [2^63] to a signed 64-bit integer, which the
    language leaves undefined.  The laws are those of IEEE binary64 with
    round-to-nearest and of a sine that is exact at 0 and stays within
    [-1, 1]. *)
Record platform : Type := mk_platform {
  rnd : R -> float;
  libm_sin : R -> R;
  max_samples : Z;
  intp_of_2_63 : Z;
  rnd_not_nan : forall x, rnd x <> NaN;
  rnd_monotone : forall x y, x <= y -> fle (rnd x) (rnd y);
  rnd_opp : forall x, rnd (- x) = fopp (rnd x);
  rnd_int : forall n : Z, (Z.abs n <= 2 ^ 53)%Z -> rnd (IZR n) = Fin (IZR n);
  rnd_pow2 : forall k : nat, (k <= 1023)%nat -> rnd (2 ^ k) = Fin (2 ^ k);
  rnd_inv_pow2 :
    forall k : nat, (k <= 1074)%nat -> rnd (/ 2 ^ k) = Fin (/ 2 ^ k);
  rnd_overflow : forall x, 2 ^ 1024 <= x -> rnd x = PInf;
  rnd_error :
    forall x y, rnd x = Fin y -> / 2 ^ 1022 <= Rabs x ->
                Rabs (y - x) <= / 2 ^ 53 * Rabs x;
  libm_sin_0 : libm_sin 0 = 0;
  libm_sin_bound : forall x, -1 <= libm_sin x <= 1;
  max_samples_range : (0 <= max_samples <= 2 ^ 53)%Z
}.

(** [x] is a double of the format. *)
Definition representable (A : platform) (x : R) : Prop := rnd A x = Fin x.

Section Model.
Variable A : platform.

Definition fmul (x y : float) : float :=
  match x, y with
  | NaN, _ | _, NaN => NaN
  | Fin a, Fin b => rnd A (a * b)
  | PInf, PInf | NInf, NInf => PInf
  | PInf, NInf | NInf, PInf => NInf
  | PInf, Fin b | Fin b, PInf =>
      if Reqb b 0 then NaN else inf_of (Rltb b 0)
  | NInf, Fin b | Fin b, NInf =>
      if Reqb b 0 then NaN else inf_of (negb (Rltb b 0))
  end.

Definition fdiv (x y : float) : float :=
  match x, y with
  | NaN, _ | _, NaN => NaN
  | Fin a, Fin b =>
      if Reqb b 0
      then (if Reqb a 0 then NaN else inf_of (Rltb a 0))
      else rnd A (a / b)
  | Fin _, PInf | Fin _, NInf => Fin 0
  | PInf, Fin b => inf_of (Rltb b 0)
  | NInf, Fin b => inf_of (negb (Rltb b 0))
  | _, _ => NaN
  end.

(** [np.sin] *)
Definition fsin (x : float) : float :=
  match x with
  | Fin a => Fin (libm_sin A a)
  | _ => NaN
  end.

(** [np.pi]: the double nearest to pi, 884279719003555 / 2^48. *)
Definition np_pi : float := Fin (884279719003555 / 281474976710656).

(** [np.arange(0, stop)] for a float [stop]: [ceil(stop)] points, the doubles
    of 0, 1, 2, ...; none when [stop <= 0].  NumPy takes the ceiling as a
    double and raises ValueError unless it lies between the doubles of the
    least and of the greatest signed 64-bit integer, [-2^63] and [2^63] (so
    for NaN and the infinities too); it then converts it to an integer,
    returns the empty array for a length that is not positive, raises
    ValueError for an array of more than [2^63 - 1] bytes, that is of [2^60]
    doubles or more, and MemoryError when the allocation fails. *)
Definition np_arange (stop : float) : result Signal :=
  match stop with
  | Fin r =>
      let n := Rceil r in
      if ((n <? - 2 ^ 63) || (2 ^ 63 <? n))%Z then Raise ValueError
      else
        let len := if (n =? 2 ^ 63)%Z then intp_of_2_63 A else n in
        if (len <=? 0)%Z then Ok []
        else if (2 ^ 60 <=? len)%Z then Raise ValueError
        else if (max_samples A <? len)%Z then Raise MemoryError
        else Ok (map (fun i => rnd A (INR i)) (seq 0 (Z.to_nat len)))
  | _ => Raise ValueError
  end.

Definition generate_sample_time_points (duration : float) : result Signal :=
  points <- np_arange (fmul duration (Fin (IZR SAMPLING_FREQ))) ;;
  Ok (map (fun p => fdiv p (Fin (IZR SAMPLING_FREQ))) points).

Definition sine (freq amplitude duration : float) : result Signal :=
  time_points <- generate_sample_time_points duration ;;
  Ok (map (fun t => fmul amplitude
                      (fsin (fmul (fmul (fmul freq (Fin 2)) np_pi) t)))
          time_points).

Definition square (freq amplitude duration : float) : result Signal :=
  s <- sine freq (Fin 1) duration ;;
  Ok (map (fun y => fmul amplitude (fsign y)) s).

Definition normalize (samples : Signal) (norm_target : float)
  : result Signal :=
  let abs_samples := map fabs samples in
  max_sample <- py_max abs_samples ;;
  let coeff := fdiv norm_target max_sample in
  Ok (map (fun s => fmul coeff s) samples).

Variable invalid_cast : float -> Z.

Definition convert_to_bytes (samples : Signal) : list byte :=
  let clipped := map (fun s => np_clip s (-1) 1) samples in
  let int_samples :=
    map (fun c => astype_i2 invalid_cast
                    (fmul c (Fin (IZR MAX_INT_SAMPLE_VALUE))))
        clipped in
  tobytes int_samples.

End Model.

(** A platform that obeys the laws: exact below the threshold [2^1023],
    infinite beyond it, with the real sine, memory for [2^32] doubles and
    the conversion of x86-64. *)
Definition saturating_rnd (x : R) : float :=
  if Rlt_dec (2 ^ 1023) x then PInf
  else if Rlt_dec x (- 2 ^ 1023) then NInf
  else Fin x.

Lemma saturating_exact (x : R) :
  Rabs x <= 2 ^ 1023 -> saturating_rnd x = Fin x.
Proof.
  intros H. unfold saturating_rnd.
  assert (- 2 ^ 1023 <= x <= 2 ^ 1023)
    by (unfold Rabs in H; destruct (Rcase_abs x); lra).
  destruct (Rlt_dec (2 ^ 1023) x); [lra|].
  destruct (Rlt_dec x (- 2 ^ 1023)); [lra | reflexivity].
Qed.

Lemma saturating_not_nan (x : R) : saturating_rnd x <> NaN.
Proof.
  unfold saturating_rnd.
  destruct (Rlt_dec (2 ^ 1023) x); [discriminate|].
  destruct (Rlt_dec x (- 2 ^ 1023)); discriminate.
Qed.

Lemma saturating_monotone (x y : R) :
  x <= y -> fle (saturating_rnd x) (saturating_rnd y).
Proof.
  intros H. unfold saturating_rnd.
  assert (Hpos : 0 < 2 ^ 1023) by (apply pow_lt; lra).
  destruct (Rlt_dec (2 ^ 1023) x), (Rlt_dec (2 ^ 1023) y),
    (Rlt_dec x (- 2 ^ 1023)), (Rlt_dec y (- 2 ^ 1023));
    simpl; try exact I; lra.
Qed.

Lemma saturating_opp (x : R) :
  saturating_rnd (- x) = fopp (saturating_rnd x).
Proof.
  unfold saturating_rnd.
  assert (Hpos : 0 < 2 ^ 1023) by (apply pow_lt; lra).
  destruct (Rlt_dec (2 ^ 1023) (- x)), (Rlt_dec (2 ^ 1023) x),
    (Rlt_dec (- x) (- 2 ^ 1023)), (Rlt_dec x (- 2 ^ 1023));
    simpl; try reflexivity; lra.
Qed.

Lemma saturating_int (n : Z) :
  (Z.abs n <= 2 ^ 53)%Z -> saturating_rnd (IZR n) = Fin (IZR n).
Proof.
  intros H. apply saturating_exact.
  rewrite <- abs_IZR.
  apply Rle_trans with (IZR (2 ^ 53)); [apply IZR_le, H|].
  change (2 ^ 53)%Z with (2 ^ Z.of_nat 53)%Z. rewrite <- pow_IZR.
  apply Rle_pow; [lra | lia].
Qed.

Lemma saturating_pow2 (k : nat) :
  (k <= 1023)%nat -> saturating_rnd (2 ^ k) = Fin (2 ^ k).
Proof.
  intros H. apply saturating_exact.
  rewrite Rabs_pos_eq by (apply pow_le; lra).
  apply Rle_pow; [lra | exact H].
Qed.

Lemma saturating_inv_pow2 (k : nat) :
  (k <= 1074)%nat -> saturating_rnd (/ 2 ^ k) = Fin (/ 2 ^ k).
Proof.
  intros _. apply saturating_exact.
  assert (Hk : 1 <= 2 ^ k) by (apply pow_R1_Rle; lra).
  assert (Hinv : 0 < / 2 ^ k <= 1).
  { split; [apply Rinv_0_lt_compat; lra|].
    rewrite <- Rinv_1. apply Rinv_le_contravar; lra. }
  rewrite Rabs_pos_eq by lra.
  apply Rle_trans with 1; [lra | apply pow_R1_Rle; lra].
Qed.

Lemma saturating_overflow (x : R) :
  2 ^ 1024 <= x -> saturating_rnd x = PInf.
Proof.
  intros H. unfold saturating_rnd.
  assert (E : 2 ^ 1024 = 2 * 2 ^ 1023) by reflexivity.
  assert (Hpos : 0 < 2 ^ 1023) by (apply pow_lt; lra).
  destruct (Rlt_dec (2 ^ 1023) x); [reflexivity | lra].
Qed.

Lemma saturating_error (x y : R) :
  saturating_rnd x = Fin y -> / 2 ^ 1022 <= Rabs x ->
  Rabs (y - x) <= / 2 ^ 53 * Rabs x.
Proof.
  unfold saturating_rnd. intros H _.
  destruct (Rlt_dec (2 ^ 1023) x); [discriminate|].
  destruct (Rlt_dec x (- 2 ^ 1023)); [discriminate|].
  injection H as <-.
  replace (x - x) with 0 by ring. rewrite Rabs_R0.
  apply Rmult_le_pos; [|apply Rabs_pos].
  apply Rlt_le, Rinv_0_lt_compat, pow_lt. lra.
Qed.

Lemma saturating_memory : (0 <= 2 ^ 32 <= 2 ^ 53)%Z.
Proof. split; [apply Z.pow_nonneg; lia | apply Z.pow_le_mono_r; lia]. Qed.

Definition saturating : platform :=
  mk_platform saturating_rnd sin (2 ^ 32) (- 2 ^ 63)
              saturating_not_nan saturating_monotone saturating_opp
              saturating_int saturating_pow2 saturating_inv_pow2
              saturating_overflow saturating_error sin_0 SIN_bound
              saturating_memory.

End Rounded.

(** * Properties *)

(** ** Interleaving *)

Close Scope R_scope.

Section InterleaveFacts.
Context {A : Type}.
Implicit Types (its frames : list (list A)) (frame l : list A).

Lemma next_all_spec its frame its' :
  next_all its = Some (frame, its') ->
  length frame = length its /\ length its' = length its /\
  forall c ch, nth_error its c = Some ch ->
    exists x t, ch = x :: t /\ nth_error frame c = Some x
                /\ nth_error its' c = Some t.
Proof.
  revert frame its'.
  induction its as [|ch0 rest IH]; intros frame its' H; simpl in H.
  - injection H as <- <-. repeat split; auto.
    intros [|c] ch Hc; discriminate Hc.
  - destruct ch0 as [|x it]; [discriminate|].
    destruct (next_all rest) as [[xs rest']|] eqn:E; [|discriminate].
    injection H as <- <-.
    destruct (IH _ _ eq_refl) as (Hf & Hr & Hn).
    simpl. repeat split; try congruence.
    intros [|c] ch Hc; simpl in *.
    + injection Hc as <-. eauto.
    + eauto.
Qed.

Lemma next_all_none its :
  next_all its = None -> its <> [] /\ min_length its = 0%nat.
Proof.
  induction its as [|ch0 rest IH]; simpl; [discriminate|].
  destruct ch0 as [|x it].
  - intros _. split; [discriminate|]. destruct rest; reflexivity.
  - destruct (next_all rest) as [[xs rest']|] eqn:E; [discriminate|].
    intros _. split; [discriminate|].
    destruct (IH eq_refl) as [Hne H0].
    destruct rest; [congruence|]. rewrite H0. apply Nat.min_0_r.
Qed.

Lemma next_all_min_length its frame its' :
  next_all its = Some (frame, its') -> its <> [] ->
  min_length its = S (min_length its').
Proof.
  revert frame its'.
  induction its as [|ch0 rest IH]; intros frame its' H Hne; [congruence|].
  simpl in H. destruct ch0 as [|x it]; [discriminate|].
  destruct (next_all rest) as [[xs rest']|] eqn:E; [|discriminate].
  injection H as <- <-.
  destruct rest as [|ch1 rest].
  - simpl in E. injection E as <- <-. reflexivity.
  - assert (Hm : min_length (ch1 :: rest) = S (min_length rest'))
      by (eapply IH; [reflexivity | discriminate]).
    destruct (next_all_spec _ _ _ E) as (_ & Hlen & _).
    destruct rest' as [|t1 rest']; [discriminate Hlen|].
    change (Nat.min (length (x :: it)) (min_length (ch1 :: rest))
            = S (Nat.min (length it) (min_length (t1 :: rest')))).
    rewrite Hm. reflexivity.
Qed.

(** The frames that [zip] produces: as many as the shortest channel has
    items, each as wide as there are channels, frame [i] holding item [i]
    of every channel. *)
Lemma zip_rounds_spec fuel : forall its,
  its <> [] -> min_length its <= fuel ->
  length (zip_rounds fuel its) = min_length its /\
  Forall (fun frame => length frame = length its) (zip_rounds fuel its) /\
  forall i c, i < min_length its -> c < length its ->
    exists frame ch x,
      nth_error (zip_rounds fuel its) i = Some frame /\
      nth_error its c = Some ch /\
      nth_error frame c = Some x /\ nth_error ch i = Some x.
Proof.
  induction fuel as [|k IH]; intros its Hne Hfuel; simpl.
  - repeat split; [lia | constructor | intros; lia].
  - destruct (next_all its) as [[frame its']|] eqn:E.
    + destruct (next_all_spec _ _ _ E) as (Hf & Hr & Hn).
      pose proof (next_all_min_length _ _ _ E Hne) as Hm.
      assert (Hne' : its' <> [])
        by (destruct its; [congruence|]; destruct its'; [discriminate|congruence]).
      destruct (IH its' Hne' ltac:(lia)) as (Hl & Hall & Hidx).
      simpl. repeat split.
      * lia.
      * constructor; [exact Hf|].
        eapply Forall_impl; [|exact Hall]. simpl. intros; congruence.
      * intros i c Hi Hc.
        destruct (nth_error its c) as [ch|] eqn:Ec;
          [|apply nth_error_None in Ec; lia].
        destruct (Hn _ _ Ec) as (x & t & -> & Hx & Ht).
        destruct i as [|j].
        -- exists frame, (x :: t), x. auto.
        -- destruct (Hidx j c ltac:(lia) ltac:(lia))
             as (fr & ch' & y & H1 & H2 & H3 & H4).
           rewrite Ht in H2. injection H2 as <-.
           exists fr, (x :: t), y. auto.
    + destruct (next_all_none _ E) as [_ H0]. simpl.
      repeat split; [lia | constructor | intros; lia].
Qed.

Lemma length_concat_uniform frames n :
  Forall (fun frame => length frame = n) frames ->
  length (concat frames) = (length frames * n)%nat.
Proof.
  induction 1 as [|fr frs Hfr _ IH]; simpl; [reflexivity|].
  rewrite length_app, IH, Hfr. reflexivity.
Qed.

Lemma nth_error_concat_uniform frames n :
  Forall (fun frame => length frame = n) frames ->
  forall i c frame, nth_error frames i = Some frame -> c < n ->
    nth_error (concat frames) (i * n + c) = nth_error frame c.
Proof.
  induction 1 as [|fr frs Hfr _ IH]; intros i c frame Hi Hc.
  - destruct i; discriminate Hi.
  - destruct i as [|j]; simpl in Hi |- *.
    + injection Hi as <-. apply nth_error_app1. lia.
    + rewrite nth_error_app2 by lia.
      replace (n + j * n + c - length fr)%nat with (j * n + c)%nat by lia.
      eauto.
Qed.

Lemma take_every_skip step : forall l skip,
  take_every step skip l = take_every step 0 (skipn skip l).
Proof.
  induction l as [|x r IH]; intros [|k]; simpl; auto.
Qed.

(** Item [i] of [l[start::step]] is item [start + i * step] of [l]. *)
Lemma nth_error_slice step : (1 <= step)%nat -> forall i l start,
  nth_error (slice_from_step l start step) i
  = nth_error l (start + i * step).
Proof.
  intros Hstep. unfold slice_from_step.
  induction i as [|j IH]; intros l start.
  - rewrite Nat.add_0_r, <- (hd_error_skipn start l).
    destruct (skipn start l); reflexivity.
  - destruct (skipn start l) as [|x r] eqn:E.
    + simpl. symmetry. apply nth_error_None.
      assert (length (skipn start l) = 0%nat) by (rewrite E; reflexivity).
      rewrite length_skipn in H. lia.
    + replace (start + S j * step)%nat
        with (start + S (step - 1 + j * step))%nat by (simpl; lia).
      rewrite <- (nth_error_skipn start l), E.
      simpl. rewrite take_every_skip. apply IH.
Qed.

End InterleaveFacts.

Lemma min_length_le_head {A : Type} (c : list A) rest :
  min_length (c :: rest) <= length c.
Proof. simpl. destruct rest; lia. Qed.

Lemma min_length_uniform {A : Type} (channels : list (list A)) L :
  Forall (fun ch => length ch = L) channels -> channels <> [] ->
  min_length channels = L.
Proof.
  induction 1 as [|c rest Hc Hrest IH]; intros Hne; [congruence|].
  destruct rest as [|c' rest']; [exact Hc|].
  change (Nat.min (length c) (min_length (c' :: rest')) = L).
  rewrite IH by discriminate. lia.
Qed.

(** Size and contents of the interleaved signal, whatever the lengths of the
    channels. *)
Lemma merge_channels_spec (channels : list Signal) :
  length (merge_channels channels) = length channels * min_length channels /\
  forall i c, i < min_length channels -> c < length channels ->
    exists ch x,
      nth_error channels c = Some ch /\ nth_error ch i = Some x /\
      nth_error (merge_channels channels) (i * length channels + c) = Some x.
Proof.
  unfold merge_channels, zip_star.
  destruct channels as [|c0 rest].
  - split; [reflexivity | simpl; intros; lia].
  - set (channels := c0 :: rest).
    destruct (zip_rounds_spec (length c0) channels ltac:(discriminate)
                (min_length_le_head c0 rest)) as (Hlen & Hall & Hidx).
    split.
    + rewrite (length_concat_uniform _ _ Hall), Hlen. apply Nat.mul_comm.
    + intros i c Hi Hc.
      destruct (Hidx i c Hi Hc) as (frame & ch & x & H1 & H2 & H3 & H4).
      exists ch, x. repeat split; auto.
      exact (eq_trans (nth_error_concat_uniform _ _ Hall i c frame H1 Hc) H3).
Qed.

(** C10. [merge_channels] is a total function (it has no error result), and
    on channels of any lengths, in particular of unequal lengths, it returns
    exactly C * L samples, C the number of channels and L the length of the
    shortest one: sample [i * C + c] of the output is sample [i] of channel
    [c] for every frame [i < L], so only the first L frames of each channel
    are interleaved. *)
Theorem merge_channels_truncates_to_shortest (channels : list Signal) :
  length (merge_channels channels) = length channels * min_length channels /\
  forall i c, i < min_length channels -> c < length channels ->
    exists ch x,
      nth_error channels c = Some ch /\ nth_error ch i = Some x /\
      nth_error (merge_channels channels) (i * length channels + c) = Some x.
Proof. exact (merge_channels_spec channels). Qed.

(** Two channels of lengths 3 and 2: four samples come out, the third sample
    of the longer channel is dropped. *)
Lemma merge_channels_truncates_witness :
  length (merge_channels [[Fin 1; Fin 2; Fin 3]; [Fin 4; Fin 5]]) = 4
  /\ merge_channels [[Fin 1; Fin 2; Fin 3]; [Fin 4; Fin 5]]
     = [Fin 1; Fin 4; Fin 2; Fin 5].
Proof.
  split.
  - exact (proj1 (merge_channels_truncates_to_shortest
                    [[Fin 1; Fin 2; Fin 3]; [Fin 4; Fin 5]])).
  - reflexivity.
Defined.

(** C4. De-interleaving the interleaving of equal-length channels, with the
    number of channels as stride, gives back the list of channels. *)
Theorem separate_merge_roundtrip (channels : list Signal) (L : nat) :
  Forall (fun ch => length ch = L) channels ->
  separate_channels (merge_channels channels) (Z.of_nat (length channels))
  = channels.
Proof.
  intros Hall. unfold separate_channels, range. rewrite Nat2Z.id.
  set (C := length channels).
  destruct (merge_channels_spec channels) as [Hlen Hidx]. fold C in Hlen, Hidx.
  apply nth_error_ext. intros c.
  rewrite nth_error_map, nth_error_seq.
  destruct (Nat.ltb_spec c C) as [Hc|Hc]; simpl.
  - assert (Hne : channels <> [])
      by (intros ->; subst C; simpl in Hc; lia).
    rewrite (min_length_uniform _ _ Hall Hne) in Hlen, Hidx.
    destruct (nth_error channels c) as [ch|] eqn:Ec;
      [|apply nth_error_None in Ec; fold C in Ec; lia].
    f_equal. apply nth_error_ext. intros i.
    rewrite nth_error_slice by lia.
    assert (Hch : length ch = L).
    { rewrite Forall_forall in Hall. apply Hall.
      eapply nth_error_In; eauto. }
    destruct (Nat.lt_ge_cases i L) as [Hi|Hi].
    + destruct (Hidx i c Hi Hc) as (ch' & x & H1 & H2 & H3).
      rewrite Ec in H1. injection H1 as <-.
      rewrite Nat.add_comm, H3, H2. reflexivity.
    + replace (nth_error ch i) with (@None float)
        by (symmetry; apply nth_error_None; lia).
      apply nth_error_None. rewrite Hlen, (Nat.mul_comm C L).
      apply Nat.le_trans with (i * C);
        [apply Nat.mul_le_mono_r; exact Hi | apply Nat.le_add_l].
  - symmetry. apply nth_error_None. exact Hc.
Qed.

Lemma separate_merge_roundtrip_witness :
  Forall (fun ch => length ch = 2) [[Fin 1; Fin 2]; [Fin 3; Fin 4]]
  /\ separate_channels (merge_channels [[Fin 1; Fin 2]; [Fin 3; Fin 4]]) 2
     = [[Fin 1; Fin 2]; [Fin 3; Fin 4]].
Proof.
  assert (H : Forall (fun ch : Signal => length ch = 2)
                [[Fin 1; Fin 2]; [Fin 3; Fin 4]])
    by (repeat constructor).
  split; [exact H|].
  exact (separate_merge_roundtrip [[Fin 1; Fin 2]; [Fin 3; Fin 4]] 2 H).
Defined.

Open Scope R_scope.

(** ** Real-number helpers *)

Lemma Reqb_true x : Reqb x x = true.
Proof. unfold Reqb. destruct (Req_dec_T x x); congruence. Qed.

Lemma Reqb_false x y : x <> y -> Reqb x y = false.
Proof. unfold Reqb. destruct (Req_dec_T x y); congruence. Qed.

Lemma Rltb_false x y : y <= x -> Rltb x y = false.
Proof. unfold Rltb. destruct (Rlt_dec x y); [lra | reflexivity]. Qed.

Lemma Rceil_bounds r : IZR (Rceil r) - 1 < r <= IZR (Rceil r).
Proof.
  unfold Rceil. rewrite opp_IZR.
  destruct (base_Int_part (- r)). lra.
Qed.

Lemma Rceil_unique r z : IZR z - 1 < r <= IZR z -> Rceil r = z.
Proof.
  intros H. unfold Rceil.
  rewrite <- (Int_part_spec (- r) (- z)); [lia|].
  rewrite opp_IZR. lra.
Qed.

Lemma Rceil_nonneg r : 0 <= r -> (0 <= Rceil r)%Z.
Proof.
  intros H. destruct (Rceil_bounds r) as [_ Hu].
  apply le_IZR. lra.
Qed.

Lemma Rceil_pos r : 0 < r -> (1 <= Rceil r)%Z.
Proof.
  intros H. destruct (Rceil_bounds r) as [_ Hu].
  assert (0 < Rceil r)%Z by (apply lt_IZR; lra). lia.
Qed.

Lemma sampling_freq_value : IZR SAMPLING_FREQ = 44100.
Proof. reflexivity. Qed.

(** ** Time axis and sine *)

Lemma generate_sample_time_points_finite (d : R) :
  generate_sample_time_points (Fin d)
  = Ok (map (fun i => Fin (INR i / 44100)) (seq 0 (sample_count d))).
Proof.
  unfold generate_sample_time_points, sample_count. simpl.
  rewrite map_map. f_equal. apply map_ext. intros i. simpl.
  rewrite sampling_freq_value, Reqb_false by lra. reflexivity.
Qed.

(** With a finite duration [sine] raises nothing, whatever the frequency and
    the amplitude: sample [i] is computed from the time point [i / 44100]. *)
Lemma sine_finite_duration (freq amplitude : float) (d : R) :
  sine freq amplitude (Fin d)
  = Ok (map (fun i => fmul amplitude
                        (fsin (fmul (fmul (fmul freq (Fin 2)) np_pi)
                                    (Fin (INR i / 44100)))))
            (seq 0 (sample_count d))).
Proof.
  unfold sine. rewrite generate_sample_time_points_finite. simpl.
  rewrite map_map. reflexivity.
Qed.


Lemma sine_length (freq amplitude : float) (d : R) :
  exists s, sine freq amplitude (Fin d) = Ok s /\ length s = sample_count d.
Proof.
  eexists. split; [apply sine_finite_duration|].
  rewrite length_map, length_seq. reflexivity.
Qed.

Lemma Rceil_quarter : Rceil (1 / 4) = 1%Z.
Proof. apply Rceil_unique. simpl. lra. Qed.

Lemma py_round_quarter : py_round (1 / 4) = 0%Z.
Proof.
  assert (Hn : Int_part (1 / 4) = 0%Z)
    by (symmetry; apply Int_part_spec; simpl; lra).
  unfold py_round, frac_part. rewrite Hn. simpl.
  destruct (Rlt_dec (1 / 4 - 0) (1 / 2)); [reflexivity | lra].
Qed.

(** C7 as stated fails: a quarter of a sampling period gives one sample,
    while [round(0.25)] is 0. *)
Lemma sine_length_is_not_round :
  exists ys,
    sine (Fin 440) (Fin 1) (Fin (1 / 176400)) = Ok ys /\
    length ys = 1%nat /\
    py_round (1 / 176400 * 44100) = 0%Z /\
    Z.of_nat (length ys) <> py_round (1 / 176400 * 44100).
Proof.
  destruct (sine_length (Fin 440) (Fin 1) (1 / 176400)) as (ys & Hs & Hl).
  assert (Hq : 1 / 176400 * 44100 = 1 / 4) by lra.
  assert (Hl1 : length ys = 1%nat).
  { rewrite Hl. unfold sample_count.
    rewrite sampling_freq_value, Hq, Rceil_quarter. reflexivity. }
  exists ys. rewrite Hq, py_round_quarter, Hl1.
  repeat split; [exact Hs | discriminate].
Qed.

(** ** Overtones *)





(** ** Normalisation *)

Lemma Rmax_abs_nonneg (l : list R) : 0 <= Rmax_abs l.
Proof.
  destruct l as [|x r]; simpl; [lra|].
  eapply Rle_trans; [apply Rabs_pos | apply Rmax_l].
Qed.

Lemma fold_max_abs (r : list R) : forall m, 0 <= m ->
  fold_left (fun m item => if fgt item m then item else m)
            (map fabs (map Fin r)) (Fin m)
  = Fin (Rmax m (Rmax_abs r)).
Proof.
  induction r as [|x r IH]; intros m Hm; simpl.
  - rewrite Rmax_left by lra. reflexivity.
  - assert (Hstep : (if Rltb m (Rabs x) then Fin (Rabs x) else Fin m)
                    = Fin (Rmax m (Rabs x))).
    { unfold Rltb. destruct (Rlt_dec m (Rabs x)).
      - rewrite Rmax_right by lra. reflexivity.
      - rewrite Rmax_left by lra. reflexivity. }
    rewrite Hstep, IH.
    + rewrite Rmax_assoc. reflexivity.
    + eapply Rle_trans; [exact Hm | apply Rmax_l].
Qed.

(** The builtin [max] finds the peak of a non-empty real signal. *)
Lemma py_max_abs (xs : list R) :
  xs <> [] -> py_max (map fabs (map Fin xs)) = Ok (Fin (Rmax_abs xs)).
Proof.
  destruct xs as [|x r]; [congruence|]. intros _.
  cbn [map py_max fabs]. rewrite fold_max_abs by apply Rabs_pos.
  reflexivity.
Qed.

(** On a real signal with a non-zero peak, [normalize] multiplies every
    sample by [t / peak]. *)
Lemma normalize_real (xs : list R) (t : R) :
  Rmax_abs xs <> 0 ->
  normalize (map Fin xs) (Fin t)
  = Ok (map Fin (map (fun x => t / Rmax_abs xs * x) xs)).
Proof.
  intros Hpeak. unfold normalize.
  assert (Hne : xs <> []) by (intros ->; apply Hpeak; reflexivity).
  rewrite (py_max_abs _ Hne). cbn [bind fdiv].
  rewrite (Reqb_false _ _ Hpeak), !map_map. reflexivity.
Qed.

Lemma Rmax_abs_one_two : Rmax_abs [1; -2] = 2.
Proof.
  unfold Rmax_abs, Rmax, Rabs.
  repeat (destruct (Rcase_abs _) || destruct (Rle_dec _ _)); lra.
Qed.

(** C6 as stated fails for a negative target: the peak of the result is 1,
    not -1. *)
Lemma normalize_negative_target :
  exists ys,
    normalize [Fin 1] (Fin (-1)) = Ok (map Fin ys) /\
    Rmax_abs ys <> -1.
Proof.
  assert (Hpeak : Rmax_abs [1] <> 0).
  { simpl. rewrite Rabs_R1, Rmax_left; lra. }
  exists (map (fun x => -1 / Rmax_abs [1] * x) [1]). split.
  - exact (normalize_real [1] (-1) Hpeak).
  - pose proof (Rmax_abs_nonneg (map (fun x => -1 / Rmax_abs [1] * x) [1])).
    lra.
Qed.

(** *** Degenerate signals *)

Lemma py_max_all_zero (samples : Signal) :
  samples <> [] -> Forall (fun s => s = Fin 0) samples ->
  py_max (map fabs samples) = Ok (Fin 0).
Proof.
  intros Hne Hall. destruct Hall as [|s0 rest Hs0 Hrest]; [congruence|].
  subst s0. cbn [map py_max fabs]. rewrite Rabs_R0. f_equal. clear Hne.
  induction Hrest as [|s rest' Hs _ IH]; [reflexivity|].
  subst s. cbn [map fold_left fabs fgt].
  rewrite Rabs_R0, Rltb_false by lra. exact IH.
Qed.

(** Dividing by a zero peak raises nothing: it yields NaN or an infinity. *)
Lemma fdiv_by_zero (t : float) :
  fdiv t (Fin 0) = NaN \/ fdiv t (Fin 0) = PInf \/ fdiv t (Fin 0) = NInf.
Proof.
  destruct t as [| | |a]; cbn [fdiv].
  - auto.
  - rewrite Rltb_false by lra. auto.
  - rewrite Rltb_false by lra. auto.
  - rewrite Reqb_true.
    destruct (Reqb a 0); [auto|]. destruct (Rltb a 0); auto.
Qed.

Lemma fmul_nonfinite_zero (c : float) :
  c = NaN \/ c = PInf \/ c = NInf -> fmul c (Fin 0) = NaN.
Proof.
  intros [-> | [-> | ->]]; cbn [fmul]; rewrite ?Reqb_true; reflexivity.
Qed.

(** A non-empty all-zero signal is returned as a signal of NaN. *)
Lemma normalize_all_zero (samples : Signal) (norm_target : float) :
  samples <> [] -> Forall (fun s => s = Fin 0) samples ->
  normalize samples norm_target = Ok (map (fun _ => NaN) samples).
Proof.
  intros Hne Hall. unfold normalize.
  rewrite (py_max_all_zero _ Hne Hall). cbn [bind]. f_equal.
  pose proof (fmul_nonfinite_zero _ (fdiv_by_zero norm_target)) as Hnan.
  clear Hne. induction Hall as [|s rest Hs _ IH]; [reflexivity|].
  subst s. cbn [map]. rewrite Hnan, IH. reflexivity.
Qed.

(** C3, as the code has it.  An empty signal makes [normalize] raise (the
    [ValueError] of [max] over an empty sequence).  A non-empty signal whose
    samples are all zero raises nothing: for every target the result is a
    signal of the same length whose samples are all NaN. *)
Theorem normalize_degenerate_signal :
  (forall norm_target, normalize [] norm_target = Raise ValueError) /\
  (forall samples norm_target,
      samples <> [] -> Forall (fun s => s = Fin 0) samples ->
      normalize samples norm_target = Ok (map (fun _ => NaN) samples) /\
      length (map (fun _ : float => NaN) samples) = length samples).
Proof.
  split; [reflexivity|].
  intros samples norm_target Hne Hall.
  split; [apply normalize_all_zero; assumption | apply length_map].
Qed.

Lemma normalize_degenerate_signal_witness :
  normalize [] (Fin 1) = Raise ValueError /\
  [Fin 0; Fin 0; Fin 0] <> [] /\
  Forall (fun s => s = Fin 0) [Fin 0; Fin 0; Fin 0] /\
  normalize [Fin 0; Fin 0; Fin 0] (Fin 1) = Ok [NaN; NaN; NaN].
Proof.
  assert (Hne : [Fin 0; Fin 0; Fin 0] <> []) by discriminate.
  assert (Hall : Forall (fun s => s = Fin 0) [Fin 0; Fin 0; Fin 0])
    by (repeat constructor).
  split; [exact (proj1 normalize_degenerate_signal (Fin 1))|].
  split; [exact Hne|]. split; [exact Hall|].
  exact (proj1 (proj2 normalize_degenerate_signal _ (Fin 1) Hne Hall)).
Defined.

(** C3 as stated fails on silence: no error is raised and the result
    holds NaN. *)
Lemma normalize_silence_returns_nan :
  normalize [Fin 0; Fin 0] (Fin 1) = Ok [NaN; NaN].
Proof.
  apply (normalize_all_zero [Fin 0; Fin 0] (Fin 1)).
  - discriminate.
  - repeat constructor.
Qed.

(** ** PCM codec *)

Lemma np_clip_real (x : R) : np_clip (Fin x) (-1) 1 = Fin (clipped x).
Proof.
  unfold np_clip, clipped, Rmin, Rmax. f_equal.
  destruct (Rlt_dec x (-1)); [|destruct (Rlt_dec 1 x)];
    repeat (destruct (Rle_dec _ _)); lra.
Qed.

Lemma clipped_range (x : R) : -1 <= clipped x <= 1.
Proof.
  unfold clipped.
  destruct (Rlt_dec x (-1)); [|destruct (Rlt_dec 1 x)]; lra.
Qed.


Lemma Int_part_nonneg (r : R) : 0 <= r -> (0 <= Int_part r)%Z.
Proof.
  intros H. destruct (base_Int_part r) as [_ Hl].
  assert (-1 < Int_part r)%Z by (apply lt_IZR; lra). lia.
Qed.

(** [Rtrunc] drops the fractional part. *)
Lemma Rtrunc_spec (r : R) : truncates_toward_zero r (Rtrunc r).
Proof.
  unfold truncates_toward_zero, Rtrunc.
  destruct (Rle_dec 0 r) as [Hr|Hr].
  - destruct (base_Int_part r) as [Hl Hu].
    pose proof (IZR_le _ _ (Int_part_nonneg r Hr)) as Hk.
    rewrite !Rabs_pos_eq by lra.
    repeat split; try lra. apply Rmult_le_pos; lra.
  - assert (Hr' : 0 <= - r) by lra.
    destruct (base_Int_part (- r)) as [Hl Hu].
    pose proof (IZR_le _ _ (Int_part_nonneg (- r) Hr')) as Hk.
    rewrite opp_IZR, Rabs_Ropp, (Rabs_pos_eq (IZR _)) by lra.
    rewrite (Rabs_left r) by lra.
    repeat split; try lra.
    replace (- IZR (Int_part (- r)) * r)
      with (IZR (Int_part (- r)) * - r) by ring.
    apply Rmult_le_pos; lra.
Qed.

Lemma Rtrunc_IZR (z : Z) : Rtrunc (IZR z) = z.
Proof.
  assert (Hz : forall n, Int_part (IZR n) = n)
    by (intros n; symmetry; apply Int_part_spec; lra).
  unfold Rtrunc. destruct (Rle_dec 0 (IZR z)); [apply Hz|].
  rewrite <- opp_IZR, Hz. lia.
Qed.

(** Truncation never leaves the interval of integers that holds the
    sample. *)
Lemma Rtrunc_range (y : R) (n : Z) :
  Rabs y <= IZR n -> (- n <= Rtrunc y <= n)%Z.
Proof.
  intros Hy. destruct (Rtrunc_spec y) as [[Hk _] _].
  assert (Habs : Rabs (IZR (Rtrunc y)) <= IZR n) by lra.
  rewrite <- abs_IZR in Habs. apply le_IZR in Habs. lia.
Qed.

Lemma np_clip_value (s : float) (c : R) :
  clip_value s = Some c -> np_clip s (-1) 1 = Fin c /\ -1 <= c <= 1.
Proof.
  destruct s as [| | |x]; cbn [clip_value]; intros H;
    try discriminate H; injection H as <-.
  - split; [reflexivity | lra].
  - split; [|lra]. cbn [np_clip]. rewrite Rmin_left by lra. reflexivity.
  - split; [apply np_clip_real | apply clipped_range].
Qed.

Lemma scaled_range (c : R) : -1 <= c <= 1 -> Rabs (c * 32767) <= IZR 32767.
Proof.
  intros H. unfold Rabs. destruct (Rcase_abs _); lra.
Qed.

(** *** Bytes of a 16-bit integer *)

Lemma to_N_byte_of_Z (z : Z) :
  Z.of_N (Byte.to_N (byte_of_Z z)) = (z mod 256)%Z.
Proof.
  unfold byte_of_Z.
  pose proof (Z.mod_pos_bound z 256 ltac:(lia)) as Hb.
  destruct (Byte.of_N (Z.to_N (z mod 256))) as [b|] eqn:E.
  - rewrite (Byte.to_of_N _ E). lia.
  - apply Byte.of_N_None_iff in E. lia.
Qed.

Lemma le16_unsigned_to_le (k : Z) :
  le16_unsigned (byte_of_Z (k mod 65536)) (byte_of_Z (k mod 65536 / 256))
  = (k mod 65536)%Z.
Proof.
  unfold le16_unsigned. rewrite !to_N_byte_of_Z.
  Z.div_mod_to_equations. lia.
Qed.

Lemma int16_of_to_le (k : Z) :
  (-32768 <= k <= 32767)%Z ->
  int16_of_le (byte_of_Z (k mod 65536)) (byte_of_Z (k mod 65536 / 256)) = k.
Proof.
  intros Hk. unfold int16_of_le.
  fold (le16_unsigned (byte_of_Z (k mod 65536))
                      (byte_of_Z (k mod 65536 / 256))).
  rewrite le16_unsigned_to_le.
  destruct (Z.ltb_spec (k mod 65536) 32768);
    Z.div_mod_to_equations; lia.
Qed.

Lemma length_tobytes (ints : list Z) :
  length (tobytes ints) = (2 * length ints)%nat.
Proof.
  induction ints as [|k r IH]; simpl; [reflexivity|].
  fold (tobytes r). rewrite IH. lia.
Qed.

Lemma nth_error_tobytes (ints : list Z) : forall i k,
  nth_error ints i = Some k ->
  nth_error (tobytes ints) (2 * i) = Some (byte_of_Z (k mod 65536)) /\
  nth_error (tobytes ints) (2 * i + 1)
  = Some (byte_of_Z (k mod 65536 / 256)).
Proof.
  induction ints as [|k0 r IH]; intros [|i] k H; try discriminate H.
  - injection H as <-. split; reflexivity.
  - simpl in H. destruct (IH i k H) as [H0 H1].
    replace (2 * S i)%nat with (S (S (2 * i))) by lia.
    replace (S (S (2 * i)) + 1)%nat with (S (S (2 * i + 1))) by lia.
    split; assumption.
Qed.

Lemma frombuffer_tobytes (ints : list Z) :
  Forall (fun k => (-32768 <= k <= 32767)%Z) ints ->
  frombuffer_i2 (tobytes ints) = Ok ints.
Proof.
  induction 1 as [|k r Hk _ IH]; [reflexivity|].
  change (tobytes (k :: r))
    with (byte_of_Z (k mod 65536) :: byte_of_Z (k mod 65536 / 256)
            :: tobytes r).
  cbn [frombuffer_i2]. rewrite IH. cbn [bind].
  rewrite (int16_of_to_le k Hk). reflexivity.
Qed.

(** *** Encoding *)

Section CodecFacts.
Variable invalid_cast : float -> Z.

(** A sample limited to [-1, 1] is scaled and truncated; the platform's
    conversion of invalid values is never consulted. *)
Lemma astype_scaled (c : R) :
  -1 <= c <= 1 ->
  astype_i2 invalid_cast (fmul (Fin c) (Fin (IZR MAX_INT_SAMPLE_VALUE)))
  = Rtrunc (c * 32767).
Proof.
  intros Hc. cbn [fmul astype_i2].
  change (IZR MAX_INT_SAMPLE_VALUE) with 32767.
  pose proof (Rtrunc_range _ _ (scaled_range c Hc)) as Hk.
  cbv zeta.
  destruct (Z.leb_spec (-32768) (Rtrunc (c * 32767)));
    destruct (Z.leb_spec (Rtrunc (c * 32767)) 32767);
    simpl; try reflexivity; lia.
Qed.

Lemma astype_scaled_clipped (x : R) :
  astype_i2 invalid_cast
    (fmul (np_clip (Fin x) (-1) 1) (Fin (IZR MAX_INT_SAMPLE_VALUE)))
  = Rtrunc (clipped x * 32767).
Proof. rewrite np_clip_real. apply astype_scaled, clipped_range. Qed.

Lemma convert_to_bytes_real (xs : list R) :
  convert_to_bytes invalid_cast (map Fin xs)
  = tobytes (map (fun x => Rtrunc (clipped x * 32767)) xs).
Proof.
  unfold convert_to_bytes. rewrite !map_map. f_equal.
  apply map_ext. intros x. apply astype_scaled_clipped.
Qed.

End CodecFacts.

(** *** Decoding what was encoded *)



Lemma convert_to_samples_tobytes (ints : list Z) :
  Forall (fun k => (-32768 <= k <= 32767)%Z) ints ->
  convert_to_samples (tobytes ints)
  = Ok (map Fin (map (fun k => IZR k / 32767) ints)).
Proof.
  intros H. unfold convert_to_samples.
  rewrite (frombuffer_tobytes _ H). cbn [bind].
  rewrite map_map. f_equal. apply map_ext. intros k. cbn [fdiv].
  change (IZR MAX_INT_SAMPLE_VALUE) with 32767.
  rewrite Reqb_false by lra. reflexivity.
Qed.



(** * Further properties of the interleaver *)

Close Scope R_scope.

Lemma min_length_le_In {A : Type} (channels : list (list A)) ch :
  In ch channels -> min_length channels <= length ch.
Proof.
  induction channels as [|c rest IH]; intros Hin; [destruct Hin|].
  destruct rest as [|c' rest'].
  - destruct Hin as [<-|[]]. apply Nat.le_refl.
  - change (Nat.min (length c) (min_length (c' :: rest')) <= length ch).
    destruct Hin as [<-|Hin]; [apply Nat.le_min_l|].
    specialize (IH Hin). lia.
Qed.

Lemma min_length_ge {A : Type} (channels : list (list A)) q :
  channels <> [] -> (forall ch, In ch channels -> q <= length ch) ->
  q <= min_length channels.
Proof.
  induction channels as [|c rest IH]; intros Hne Hall; [congruence|].
  destruct rest as [|c' rest'].
  - apply Hall. left. reflexivity.
  - change (q <= Nat.min (length c) (min_length (c' :: rest'))).
    apply Nat.min_glb.
    + apply Hall. left. reflexivity.
    + apply IH; [discriminate|]. intros ch Hin. apply Hall. right. exact Hin.
Qed.

Lemma separate_channels_nth (samples : Signal) (C c : nat) :
  c < C ->
  nth_error (separate_channels samples (Z.of_nat C)) c
  = Some (slice_from_step samples c C).
Proof.
  intros Hc. unfold separate_channels, range. rewrite Nat2Z.id.
  rewrite nth_error_map, nth_error_seq.
  destruct (Nat.ltb_spec c C); [reflexivity | lia].
Qed.

Lemma separate_channels_length (samples : Signal) (C : nat) :
  length (separate_channels samples (Z.of_nat C)) = C.
Proof.
  unfold separate_channels, range.
  rewrite Nat2Z.id, length_map, length_seq. reflexivity.
Qed.

(** X1. De-interleaving is a strided read that loses nothing: with
    [C >= 1] channels asked for, channel [c] holds the samples at positions
    [c], [c + C], [c + 2 C], ... and every input sample, also one of a
    trailing incomplete frame, is found at place [n / C] of channel
    [n mod C].  With [num_channels <= 0] the result is the empty list. *)
Theorem separate_channels_strided (samples : Signal) :
  (forall num_channels : Z,
      (num_channels <= 0)%Z -> separate_channels samples num_channels = []) /\
  (forall C : nat, 1 <= C ->
     length (separate_channels samples (Z.of_nat C)) = C /\
     (forall c i, c < C ->
        exists ch,
          nth_error (separate_channels samples (Z.of_nat C)) c = Some ch /\
          nth_error ch i = nth_error samples (c + i * C)) /\
     (forall n, n < length samples ->
        exists ch,
          nth_error (separate_channels samples (Z.of_nat C)) (n mod C)
            = Some ch /\
          nth_error ch (n / C) = nth_error samples n)).
Proof.
  split.
  - intros num Hnum. unfold separate_channels, range.
    replace (Z.to_nat num) with 0 by lia. reflexivity.
  - intros C HC. split; [apply separate_channels_length|]. split.
    + intros c i Hc. exists (slice_from_step samples c C).
      split; [apply separate_channels_nth; exact Hc|].
      apply nth_error_slice. exact HC.
    + intros n _. exists (slice_from_step samples (n mod C) C).
      split.
      * apply separate_channels_nth. apply Nat.mod_upper_bound. lia.
      * rewrite nth_error_slice by exact HC. f_equal.
        rewrite (Nat.div_mod_eq n C) at 3. lia.
Qed.

Lemma separate_channels_strided_witness :
  1 <= 2 /\
  separate_channels [Fin 1; Fin 2; Fin 3; Fin 4; Fin 5] 2
  = [[Fin 1; Fin 3; Fin 5]; [Fin 2; Fin 4]] /\
  length (separate_channels [Fin 1; Fin 2; Fin 3; Fin 4; Fin 5] 2) = 2.
Proof.
  split; [lia|]. split; [reflexivity|].
  exact (proj1 (proj2 (separate_channels_strided
                         [Fin 1; Fin 2; Fin 3; Fin 4; Fin 5])
                      2 (le_S _ _ (le_n 1)))).
Defined.

Lemma slice_length_bounds (samples : Signal) (C c : nat) :
  1 <= C -> c < C ->
  length samples / C <= length (slice_from_step samples c C) /\
  (c = C - 1 -> length (slice_from_step samples c C) <= length samples / C).
Proof.
  intros HC Hc.
  pose proof (Nat.div_mod_eq (length samples) C) as Hdm.
  pose proof (Nat.mod_upper_bound (length samples) C ltac:(lia)) as Hmod.
  split.
  - destruct (Nat.le_gt_cases (length samples / C)
                (length (slice_from_step samples c C))) as [H|H]; [exact H|].
    exfalso.
    assert (Hnone : nth_error (slice_from_step samples c C)
                      (length (slice_from_step samples c C)) = None)
      by (apply nth_error_None; apply Nat.le_refl).
    rewrite nth_error_slice in Hnone by exact HC.
    apply nth_error_None in Hnone. nia.
  - intros ->. apply nth_error_None.
    rewrite nth_error_slice by exact HC. apply nth_error_None. nia.
Qed.

Lemma separate_channels_min_length (samples : Signal) (C : nat) :
  1 <= C ->
  min_length (separate_channels samples (Z.of_nat C)) = length samples / C.
Proof.
  intros HC. apply Nat.le_antisymm.
  - assert (Hlast : nth_error (separate_channels samples (Z.of_nat C)) (C - 1)
                    = Some (slice_from_step samples (C - 1) C))
      by (apply separate_channels_nth; lia).
    apply nth_error_In in Hlast.
    eapply Nat.le_trans; [apply (min_length_le_In _ _ Hlast)|].
    apply slice_length_bounds; [exact HC | lia | reflexivity].
  - apply min_length_ge.
    + intros Hnil.
      pose proof (separate_channels_length samples C) as Hl.
      rewrite Hnil in Hl. simpl in Hl. lia.
    + intros ch Hin. apply In_nth_error in Hin. destruct Hin as [c Hc].
      assert (Hlt : c < length (separate_channels samples (Z.of_nat C)))
        by (apply (proj1 (nth_error_Some _ c)); intros E;
            pose proof (eq_trans (eq_sym E) Hc) as X; discriminate X).
      rewrite separate_channels_length in Hlt.
      pose proof (eq_trans (eq_sym (separate_channels_nth samples C c Hlt))
                           Hc) as E.
      injection E as <-. apply slice_length_bounds; assumption.
Qed.

(** X2. Interleaving what was de-interleaved into [C >= 1] channels gives
    back the samples of the whole frames, in order: the first
    [C * (len / C)] samples.  A trailing incomplete frame is lost there (the
    channels then differ in length and [zip] stops at the shortest); when the
    length is a multiple of [C] the round trip is the identity. *)
Theorem merge_separate_keeps_whole_frames (samples : Signal) (C : nat) :
  1 <= C ->
  merge_channels (separate_channels samples (Z.of_nat C))
    = firstn (C * (length samples / C)) samples /\
  (length samples mod C = 0 ->
   merge_channels (separate_channels samples (Z.of_nat C)) = samples).
Proof.
  intros HC.
  pose proof (Nat.div_mod_eq (length samples) C) as Hdm.
  assert (Hmain : merge_channels (separate_channels samples (Z.of_nat C))
                  = firstn (C * (length samples / C)) samples).
  { destruct (merge_channels_spec (separate_channels samples (Z.of_nat C)))
      as [Hlen Hidx].
    rewrite separate_channels_length,
      (separate_channels_min_length samples C HC) in Hlen, Hidx.
    apply nth_error_ext. intros m.
    destruct (Nat.lt_ge_cases m (C * (length samples / C))) as [Hm|Hm].
    - rewrite nth_error_firstn.
      destruct (Nat.ltb_spec m (C * (length samples / C))); [|lia].
      pose proof (Nat.div_mod_eq m C) as Hmdm.
      pose proof (Nat.mod_upper_bound m C ltac:(lia)) as Hmmod.
      assert (Hi : m / C < length samples / C) by nia.
      destruct (Hidx (m / C) (m mod C) Hi Hmmod) as (ch & x & H1 & H2 & H3).
      rewrite (separate_channels_nth samples C _ Hmmod) in H1.
      injection H1 as <-.
      rewrite nth_error_slice in H2 by exact HC.
      replace (m / C * C + m mod C) with m in H3 by lia.
      replace (m mod C + m / C * C) with m in H2 by lia.
      congruence.
    - transitivity (@None float).
      + apply nth_error_None. rewrite Hlen. exact Hm.
      + symmetry. apply nth_error_None.
        rewrite length_firstn. lia. }
  split; [exact Hmain|].
  intros Hmod. rewrite Hmain.
  apply firstn_all2. lia.
Qed.

Lemma merge_separate_keeps_whole_frames_witness :
  1 <= 2 /\
  merge_channels
    (separate_channels [Fin 1; Fin 2; Fin 3; Fin 4; Fin 5] 2)
  = [Fin 1; Fin 2; Fin 3; Fin 4].
Proof.
  split; [lia|].
  exact (proj1 (merge_separate_keeps_whole_frames
                  [Fin 1; Fin 2; Fin 3; Fin 4; Fin 5] 2
                  (le_S _ _ (le_n 1)))).
Defined.

Lemma min_length_with_empty {A : Type} (channels : list (list A)) :
  In [] channels -> min_length channels = 0.
Proof.
  intros Hin. pose proof (min_length_le_In _ _ Hin) as H.
  simpl in H. lia.
Qed.

(** X3. A single channel is interleaved into itself, and one empty channel
    among the channels silently empties the whole result. *)
Theorem merge_channels_mono_and_empty :
  (forall s : Signal, merge_channels [s] = s) /\
  (forall channels : list Signal,
      In [] channels -> merge_channels channels = []).
Proof.
  split.
  - intros s. destruct (merge_channels_spec [s]) as [Hlen Hidx].
    simpl in Hlen, Hidx.
    apply nth_error_ext. intros i.
    destruct (Nat.lt_ge_cases i (length s)) as [Hi|Hi].
    + destruct (Hidx i 0 Hi ltac:(lia)) as (ch & x & H1 & H2 & H3).
      injection H1 as <-.
      replace (i * 1 + 0) with i in H3 by lia. congruence.
    + transitivity (@None float); [|symmetry]; apply nth_error_None; lia.
  - intros channels Hin.
    destruct (merge_channels_spec channels) as [Hlen _].
    rewrite (min_length_with_empty _ Hin), Nat.mul_0_r in Hlen.
    destruct (merge_channels channels); [reflexivity | discriminate Hlen].
Qed.

Lemma merge_channels_mono_and_empty_witness :
  In [] [[Fin 1; Fin 2]; []] /\ merge_channels [[Fin 1; Fin 2]; []] = [].
Proof.
  assert (H : In (@nil float) [[Fin 1; Fin 2]; []])
    by (right; left; reflexivity).
  split; [exact H|].
  exact (proj2 merge_channels_mono_and_empty [[Fin 1; Fin 2]; []] H).
Defined.

Open Scope R_scope.

(** * Further properties of the generators *)

Lemma lt_sample_count (x : R) (i : nat) :
  (i < Z.to_nat (Rceil x))%nat <-> INR i < x.
Proof.
  destruct (Rceil_bounds x) as [Hl Hu]. rewrite INR_IZR_INZ. split.
  - intros Hi.
    assert (Hz : (Z.of_nat i <= Rceil x - 1)%Z) by lia.
    apply IZR_le in Hz. rewrite minus_IZR in Hz. lra.
  - intros Hi.
    assert (Hz : (Z.of_nat i < Rceil x)%Z) by (apply lt_IZR; lra).
    lia.
Qed.

(** X5. A duration that is NaN or infinite makes the time axis raise, and
    the same exception leaves [sine], [square] and [sine_with_overtones],
    whatever their other arguments: no signal is returned. *)
Theorem generators_reject_nonfinite_duration (duration : float) :
  (forall d, duration <> Fin d) ->
  exists e,
    generate_sample_time_points duration = Raise e /\
    (forall freq amplitude, sine freq amplitude duration = Raise e) /\
    (forall freq amplitude, square freq amplitude duration = Raise e) /\
    (forall root_freq amplitude overtones,
        sine_with_overtones root_freq amplitude overtones duration = Raise e).
Proof.
  intros Hnf.
  assert (Hgen : exists e, generate_sample_time_points duration = Raise e).
  { unfold generate_sample_time_points.
    destruct duration as [| | |d]; cbn [fmul];
      rewrite ?sampling_freq_value, ?Reqb_false, ?Rltb_false by lra;
      cbn; eauto.
    exfalso. apply (Hnf d). reflexivity. }
  destruct Hgen as [e He]. exists e.
  assert (Hsine : forall freq amplitude, sine freq amplitude duration = Raise e)
    by (intros; unfold sine; rewrite He; reflexivity).
  split; [exact He|]. split; [exact Hsine|]. split.
  - intros. unfold square. rewrite Hsine. reflexivity.
  - intros. unfold sine_with_overtones. rewrite Hsine. reflexivity.
Qed.

Lemma generators_reject_nonfinite_duration_witness :
  (forall d, NaN <> Fin d) /\
  exists e,
    generate_sample_time_points NaN = Raise e /\
    (forall freq amplitude, sine freq amplitude NaN = Raise e) /\
    (forall freq amplitude, square freq amplitude NaN = Raise e) /\
    (forall root_freq amplitude overtones,
        sine_with_overtones root_freq amplitude overtones NaN = Raise e).
Proof.
  assert (H : forall d, NaN <> Fin d) by (intros d; discriminate).
  split; [exact H|]. exact (generators_reject_nonfinite_duration NaN H).
Defined.




(** * Further properties of the normaliser *)

Lemma Rmax_abs_upper (l : list R) (x : R) :
  In x l -> Rabs x <= Rmax_abs l.
Proof.
  induction l as [|y r IH]; intros Hin; [destruct Hin|].
  cbn [Rmax_abs]. destruct Hin as [<-|Hin].
  - apply Rmax_l.
  - eapply Rle_trans; [apply IH, Hin | apply Rmax_r].
Qed.

Lemma fold_max_from_nan (l : Signal) :
  fold_left (fun m item => if fgt item m then item else m) l NaN = NaN.
Proof.
  induction l as [|x r IH]; [reflexivity|].
  cbn [fold_left]. destruct x; exact IH.
Qed.

(** X12. A NaN in first position poisons the whole result: the peak found
    by [max] is NaN (no later sample compares greater than NaN), so every
    output sample is NaN, for any target and any other samples; no error is
    raised. *)
Theorem normalize_nan_first (rest : Signal) (norm_target : float) :
  normalize (NaN :: rest) norm_target
  = Ok (map (fun _ => NaN) (NaN :: rest)).
Proof.
  unfold normalize. cbn [map fabs py_max]. rewrite fold_max_from_nan.
  cbn [bind]. f_equal.
  assert (Hc : fdiv norm_target NaN = NaN) by (destruct norm_target; reflexivity).
  rewrite Hc. reflexivity.
Qed.

(** * Further properties of the codec *)





Lemma Rtrunc_opp (y : R) : Rtrunc (- y) = (- Rtrunc y)%Z.
Proof.
  unfold Rtrunc.
  destruct (Rle_dec 0 y) as [Hy|Hy], (Rle_dec 0 (- y)) as [Hn|Hn].
  - assert (y = 0) by lra. subst y. rewrite Ropp_0.
    assert (H0 : Int_part 0 = 0%Z) by (symmetry; apply Int_part_spec; lra).
    rewrite H0. reflexivity.
  - rewrite Ropp_involutive. reflexivity.
  - lia.
  - lra.
Qed.

Lemma clipped_opp (x : R) : clipped (- x) = - clipped x.
Proof.
  unfold clipped.
  destruct (Rlt_dec (- x) (-1)), (Rlt_dec 1 (- x)),
    (Rlt_dec x (-1)), (Rlt_dec 1 x); lra.
Qed.

(** X16. The codec treats both polarities alike: inverting a real signal
    before encoding inverts every decoded sample exactly (truncation is
    toward zero on both sides and the clipping range is symmetric). *)
Theorem pcm_codec_is_odd (invalid_cast : float -> Z) (xs : list R) :
  exists ys,
    convert_to_samples (convert_to_bytes invalid_cast (map Fin xs))
      = Ok (map Fin ys) /\
    convert_to_samples
      (convert_to_bytes invalid_cast (map Fin (map Ropp xs)))
      = Ok (map Fin (map Ropp ys)).
Proof.
  assert (Hdec : forall l : list R,
             convert_to_samples (convert_to_bytes invalid_cast (map Fin l))
             = Ok (map Fin (map (fun x => IZR (Rtrunc (clipped x * 32767))
                                          / 32767) l))).
  { intros l. rewrite convert_to_bytes_real.
    rewrite convert_to_samples_tobytes, !map_map; [reflexivity|].
    apply Forall_forall. intros k Hin.
    apply in_map_iff in Hin. destruct Hin as (x & <- & _).
    pose proof (Rtrunc_range _ _ (scaled_range _ (clipped_range x))). lia. }
  eexists. split; [apply Hdec|].
  rewrite Hdec, !map_map. f_equal. apply map_ext. intros x. f_equal.
  rewrite clipped_opp.
  replace (- clipped x * 32767) with (- (clipped x * 32767)) by ring.
  rewrite Rtrunc_opp, opp_IZR. field.
Qed.

Lemma convert_to_bytes_index (invalid_cast : float -> Z) (samples : Signal)
    (i : nat) (s : float) (c : R) :
  nth_error samples i = Some s -> clip_value s = Some c ->
  nth_error (convert_to_bytes invalid_cast samples) (2 * i)
    = Some (byte_of_Z (Rtrunc (c * 32767) mod 65536)) /\
  nth_error (convert_to_bytes invalid_cast samples) (2 * i + 1)
    = Some (byte_of_Z (Rtrunc (c * 32767) mod 65536 / 256)).
Proof.
  intros Hi Hclip.
  destruct (np_clip_value s c Hclip) as [Hnp Hc].
  apply nth_error_tobytes.
  rewrite !nth_error_map, Hi. cbn [option_map].
  rewrite Hnp, (astype_scaled invalid_cast c Hc). reflexivity.
Qed.

(** X17. Full scale saturates symmetrically: a sample that is [+inf] or a
    real [>= 1] is written as FF 7F (32767), a sample that is [-inf] or a
    real [<= -1] as 01 80 (-32767). *)
Theorem convert_to_bytes_saturates (invalid_cast : float -> Z)
    (samples : Signal) (i : nat) (s : float) :
  nth_error samples i = Some s ->
  ((s = PInf \/ exists x, s = Fin x /\ 1 <= x) ->
   nth_error (convert_to_bytes invalid_cast samples) (2 * i) = Some xff /\
   nth_error (convert_to_bytes invalid_cast samples) (2 * i + 1) = Some x7f) /\
  ((s = NInf \/ exists x, s = Fin x /\ x <= -1) ->
   nth_error (convert_to_bytes invalid_cast samples) (2 * i) = Some x01 /\
   nth_error (convert_to_bytes invalid_cast samples) (2 * i + 1) = Some x80).
Proof.
  intros Hi. split; intros Hs.
  - assert (Hclip : clip_value s = Some 1).
    { destruct Hs as [->|(x & -> & Hx)]; [reflexivity|].
      cbn [clip_value]. f_equal. unfold clipped.
      destruct (Rlt_dec x (-1)); [lra|]. destruct (Rlt_dec 1 x); lra. }
    destruct (convert_to_bytes_index invalid_cast samples i s 1 Hi Hclip)
      as [H0 H1].
    replace (1 * 32767) with (IZR 32767) in H0, H1 by lra.
    rewrite Rtrunc_IZR in H0, H1. split; assumption.
  - assert (Hclip : clip_value s = Some (-1)).
    { destruct Hs as [->|(x & -> & Hx)]; [reflexivity|].
      cbn [clip_value]. f_equal. unfold clipped.
      destruct (Rlt_dec x (-1)); [lra|]. destruct (Rlt_dec 1 x); lra. }
    destruct (convert_to_bytes_index invalid_cast samples i s (-1) Hi Hclip)
      as [H0 H1].
    replace (-1 * 32767) with (IZR (-32767)) in H0, H1 by lra.
    rewrite Rtrunc_IZR in H0, H1. split; assumption.
Qed.

Lemma convert_to_bytes_saturates_witness :
  nth_error [Fin 0; Fin 3] 1 = Some (Fin 3) /\
  (Fin 3 = PInf \/ exists x, Fin 3 = Fin x /\ 1 <= x) /\
  nth_error (convert_to_bytes (fun _ => 0%Z) [Fin 0; Fin 3]) (2 * 1)
    = Some xff /\
  nth_error (convert_to_bytes (fun _ => 0%Z) [Fin 0; Fin 3]) (2 * 1 + 1)
    = Some x7f.
Proof.
  assert (H : Fin 3 = PInf \/ exists x, Fin 3 = Fin x /\ 1 <= x).
  { right. exists 3. split; [reflexivity | lra]. }
  split; [reflexivity|]. split; [exact H|].
  exact (proj1 (convert_to_bytes_saturates (fun _ => 0%Z) [Fin 0; Fin 3]
                  1%nat (Fin 3) eq_refl) H).
Defined.

(** X18. Clipping keeps the integer conversion defined: as long as no
    sample is NaN, the bytes do not depend on what the platform does with
    values that have no int16 image. *)
Theorem convert_to_bytes_platform_independent
    (cast1 cast2 : float -> Z) (samples : Signal) :
  Forall (fun s => s <> NaN) samples ->
  convert_to_bytes cast1 samples = convert_to_bytes cast2 samples.
Proof.
  intros Hall. unfold convert_to_bytes. f_equal. rewrite !map_map.
  apply map_ext_in. intros s Hin.
  rewrite Forall_forall in Hall. specialize (Hall s Hin).
  assert (Hclip : exists c, clip_value s = Some c)
    by (destruct s; [congruence | | | ]; cbn; eauto).
  destruct Hclip as [c Hclip].
  destruct (np_clip_value s c Hclip) as [-> Hc].
  rewrite !astype_scaled by exact Hc. reflexivity.
Qed.

Lemma convert_to_bytes_platform_independent_witness :
  Forall (fun s => s <> NaN) [Fin 2; NInf] /\
  convert_to_bytes (fun _ => 0%Z) [Fin 2; NInf]
  = convert_to_bytes (fun _ => (-32768)%Z) [Fin 2; NInf].
Proof.
  assert (H : Forall (fun s => s <> NaN) [Fin 2; NInf])
    by (repeat constructor; discriminate).
  split; [exact H|].
  exact (convert_to_bytes_platform_independent
           (fun _ => 0%Z) (fun _ => (-32768)%Z) [Fin 2; NInf] H).
Defined.

(** * The driver *)



















Open Scope string_scope.


Close Scope string_scope.

(** * Properties that depend on rounding *)

Section RoundedFacts.
Variable A : Rounded.platform.

Lemma rnd_le_fin (x b b' : R) :
  x <= b -> Rounded.rnd A b = Fin b' ->
  Rounded.rnd A x <> PInf /\
  forall y, Rounded.rnd A x = Fin y -> y <= b'.
Proof.
  intros Hx Hb. pose proof (Rounded.rnd_monotone A x b Hx) as Hm.
  rewrite Hb in Hm.
  destruct (Rounded.rnd A x) as [| | |y]; simpl in Hm; try contradiction.
  - split; [discriminate | intros y H; discriminate H].
  - split; [discriminate | intros y' H; injection H as <-; exact Hm].
Qed.

Lemma rnd_ge_fin (x a a' : R) :
  a <= x -> Rounded.rnd A a = Fin a' ->
  Rounded.rnd A x <> NInf /\
  forall y, Rounded.rnd A x = Fin y -> a' <= y.
Proof.
  intros Hx Ha. pose proof (Rounded.rnd_monotone A a x Hx) as Hm.
  rewrite Ha in Hm.
  destruct (Rounded.rnd A x) as [| | |y]; simpl in Hm; try contradiction.
  - split; [discriminate | intros y H; discriminate H].
  - split; [discriminate | intros y' H; injection H as <-; exact Hm].
Qed.

(** A result between two doubles is rounded to a double between them. *)
Lemma rnd_between (x a a' b b' : R) :
  a <= x <= b -> Rounded.rnd A a = Fin a' -> Rounded.rnd A b = Fin b' ->
  exists y, Rounded.rnd A x = Fin y /\ a' <= y <= b'.
Proof.
  intros [Hax Hxb] Ha Hb.
  destruct (rnd_le_fin x b b' Hxb Hb) as [Hnp Hle].
  destruct (rnd_ge_fin x a a' Hax Ha) as [Hnn Hge].
  pose proof (Rounded.rnd_not_nan A x) as Hnan.
  destruct (Rounded.rnd A x) as [| | |y]; try congruence.
  exists y. split; [reflexivity|]. split; [apply Hge | apply Hle]; reflexivity.
Qed.

Lemma rnd_neg_pow2 (k : nat) :
  (k <= 1023)%nat -> Rounded.rnd A (- 2 ^ k) = Fin (- 2 ^ k).
Proof.
  intros Hk. rewrite Rounded.rnd_opp, (Rounded.rnd_pow2 A k Hk). reflexivity.
Qed.

(** No overflow below a power of two of the format. *)
Lemma rnd_bounded_pow2 (x : R) (k : nat) :
  (k <= 1023)%nat -> Rabs x <= 2 ^ k ->
  exists y, Rounded.rnd A x = Fin y /\ Rabs y <= 2 ^ k.
Proof.
  intros Hk Hx.
  assert (Hr : - 2 ^ k <= x <= 2 ^ k)
    by (unfold Rabs in Hx; destruct (Rcase_abs x); lra).
  destruct (rnd_between x _ _ _ _ Hr (rnd_neg_pow2 k Hk)
              (Rounded.rnd_pow2 A k Hk)) as (y & Hy & Hb).
  exists y. split; [exact Hy|].
  unfold Rabs. destruct (Rcase_abs y); lra.
Qed.

Lemma rnd_nonneg_pow2 (x : R) (k : nat) :
  (k <= 1023)%nat -> 0 <= x <= 2 ^ k ->
  exists y, Rounded.rnd A x = Fin y /\ 0 <= y <= 2 ^ k.
Proof.
  intros Hk Hx.
  apply (rnd_between x 0 0 (2 ^ k) (2 ^ k) Hx).
  - apply (Rounded.rnd_int A 0). discriminate.
  - apply Rounded.rnd_pow2, Hk.
Qed.

Lemma rnd_zero : Rounded.rnd A 0 = Fin 0.
Proof. apply (Rounded.rnd_int A 0). discriminate. Qed.

Lemma rnd_int_between (x : R) (a b : Z) :
  (Z.abs a <= 2 ^ 53)%Z -> (Z.abs b <= 2 ^ 53)%Z ->
  IZR a <= x <= IZR b ->
  exists y, Rounded.rnd A x = Fin y /\ IZR a <= y <= IZR b.
Proof.
  intros Ha Hb Hx.
  exact (rnd_between x _ _ _ _ Hx (Rounded.rnd_int A a Ha)
                     (Rounded.rnd_int A b Hb)).
Qed.

Lemma representable_opp (a : R) :
  Rounded.representable A a -> Rounded.rnd A (- a) = Fin (- a).
Proof.
  unfold Rounded.representable. intros H.
  rewrite Rounded.rnd_opp, H. reflexivity.
Qed.

(** ** Time axis *)

Lemma Rceil_le_Z (y : R) (m : Z) : y <= IZR m -> (Rceil y <= m)%Z.
Proof.
  intros H. destruct (Rceil_bounds y) as [Hl _].
  assert (Hlt : (Rceil y < m + 1)%Z) by (apply lt_IZR; rewrite plus_IZR; lra).
  lia.
Qed.

Lemma Rceil_ge_Z (y : R) (m : Z) : IZR m <= y -> (m <= Rceil y)%Z.
Proof.
  intros H. destruct (Rceil_bounds y) as [_ Hu]. apply le_IZR. lra.
Qed.

Lemma max_samples_le_pow2 : IZR (Rounded.max_samples A) <= 2 ^ 62.
Proof.
  destruct (Rounded.max_samples_range A) as [_ H].
  apply Rle_trans with (IZR (2 ^ 53)); [apply IZR_le, H|].
  change (2 ^ 53)%Z with (2 ^ Z.of_nat 53)%Z. rewrite <- pow_IZR.
  apply Rle_pow; [lra | lia].
Qed.

(** The outcomes of [np.arange]: a stop within the memory of the machine
    gives [ceil stop] points, a stop between [-2^63] and 0 gives none, a stop
    beyond [2^64] in magnitude raises. *)
Lemma rounded_arange_in_memory (y : R) :
  0 <= y <= IZR (Rounded.max_samples A) ->
  Rounded.np_arange A (Fin y)
  = Ok (map (fun i => Rounded.rnd A (INR i)) (seq 0 (Z.to_nat (Rceil y)))).
Proof.
  intros [H0 Hm]. cbn [Rounded.np_arange]. cbv zeta.
  pose proof (Rceil_nonneg y H0) as Hlo.
  pose proof (Rceil_le_Z y _ Hm) as Hhi.
  destruct (Rounded.max_samples_range A) as [_ Hcap].
  assert (E53 : (2 ^ 53 = 9007199254740992)%Z) by reflexivity.
  assert (E60 : (2 ^ 60 = 1152921504606846976)%Z) by reflexivity.
  assert (E63 : (2 ^ 63 = 9223372036854775808)%Z) by reflexivity.
  rewrite E53 in Hcap.
  assert (Hin : ((Rceil y <? - 2 ^ 63) || (2 ^ 63 <? Rceil y))%Z = false)
    by (apply orb_false_intro; apply Z.ltb_ge; rewrite E63; lia).
  assert (Hne : (Rceil y =? 2 ^ 63)%Z = false)
    by (apply Z.eqb_neq; rewrite E63; lia).
  rewrite Hin, Hne.
  destruct (Z.eq_dec (Rceil y) 0) as [Hz|Hz].
  - rewrite Hz. reflexivity.
  - assert (Hpos : (Rceil y <=? 0)%Z = false) by (apply Z.leb_gt; lia).
    assert (H60 : (2 ^ 60 <=? Rceil y)%Z = false)
      by (apply Z.leb_gt; rewrite E60; lia).
    assert (Hmem : (Rounded.max_samples A <? Rceil y)%Z = false)
      by (apply Z.ltb_ge; lia).
    rewrite Hpos, H60, Hmem. reflexivity.
Qed.

Lemma rounded_arange_nonpositive (y : R) :
  - 2 ^ 63 <= y <= 0 -> Rounded.np_arange A (Fin y) = Ok [].
Proof.
  intros [Hlo Hhi]. cbn [Rounded.np_arange]. cbv zeta.
  pose proof (Rceil_le_Z y 0 Hhi) as Hc0.
  assert (Hc1 : (- 2 ^ Z.of_nat 63 <= Rceil y)%Z).
  { apply Rceil_ge_Z. rewrite opp_IZR, <- pow_IZR. exact Hlo. }
  assert (E63 : (2 ^ Z.of_nat 63 = 9223372036854775808)%Z) by reflexivity.
  assert (E63' : (2 ^ 63 = 9223372036854775808)%Z) by reflexivity.
  rewrite E63 in Hc1.
  assert (Hin : ((Rceil y <? - 2 ^ 63) || (2 ^ 63 <? Rceil y))%Z = false)
    by (apply orb_false_intro; apply Z.ltb_ge; rewrite E63'; lia).
  assert (Hne : (Rceil y =? 2 ^ 63)%Z = false)
    by (apply Z.eqb_neq; rewrite E63'; lia).
  assert (Hnp : (Rceil y <=? 0)%Z = true) by (apply Z.leb_le; exact Hc0).
  rewrite Hin, Hne, Hnp. reflexivity.
Qed.

Lemma rounded_arange_out_of_range (y : R) :
  y <= - 2 ^ 64 \/ 2 ^ 64 <= y ->
  Rounded.np_arange A (Fin y) = Raise ValueError.
Proof.
  intros Hy. cbn [Rounded.np_arange]. cbv zeta.
  assert (E64 : (2 ^ Z.of_nat 64 = 18446744073709551616)%Z) by reflexivity.
  assert (E63 : (2 ^ 63 = 9223372036854775808)%Z) by reflexivity.
  assert (Hout : ((Rceil y <? - 2 ^ 63) || (2 ^ 63 <? Rceil y))%Z = true).
  { apply orb_true_intro. destruct Hy as [Hy|Hy].
    - left. apply Z.ltb_lt.
      assert (Hc : (Rceil y <= - 2 ^ Z.of_nat 64)%Z).
      { apply Rceil_le_Z. rewrite opp_IZR, <- pow_IZR. exact Hy. }
      rewrite E64 in Hc. rewrite E63. lia.
    - right. apply Z.ltb_lt.
      assert (Hc : (2 ^ Z.of_nat 64 <= Rceil y)%Z).
      { apply Rceil_ge_Z. rewrite <- pow_IZR. exact Hy. }
      rewrite E64 in Hc. rewrite E63. lia. }
  rewrite Hout. reflexivity.
Qed.

(** With a product [d * 44100] that is not negative and within the memory
    of the machine, the time axis raises nothing: it has [ceil y] points, [y]
    the double of the product, and point [i] is the double of [i] divided by
    44100. *)
Lemma rounded_time_points (d : R) :
  0 <= d * 44100 <= IZR (Rounded.max_samples A) ->
  exists y,
    Rounded.rnd A (d * 44100) = Fin y /\
    0 <= y <= IZR (Rounded.max_samples A) /\
    Rounded.generate_sample_time_points A (Fin d)
    = Ok (map (fun i => Rounded.fdiv A (Rounded.rnd A (INR i)) (Fin 44100))
              (seq 0 (Z.to_nat (Rceil y)))).
Proof.
  intros Hd.
  destruct (Rounded.max_samples_range A) as [Hm0 Hm].
  destruct (rnd_int_between (d * 44100) 0 (Rounded.max_samples A))
    as (y & Hy & Hb); [discriminate | | exact Hd |].
  { rewrite Z.abs_eq by exact Hm0. exact Hm. }
  exists y. split; [exact Hy|]. split; [exact Hb|].
  unfold Rounded.generate_sample_time_points. cbn [Rounded.fmul].
  rewrite sampling_freq_value, Hy, (rounded_arange_in_memory y Hb).
  cbn [bind]. rewrite map_map. reflexivity.
Qed.

(** Every time point below index [2^62] is a finite double between 0 and
    [2^62]; the first one is 0. *)
Lemma rounded_time_point_finite (i : nat) :
  INR i <= 2 ^ 62 ->
  exists t, Rounded.fdiv A (Rounded.rnd A (INR i)) (Fin 44100) = Fin t /\
            0 <= t <= 2 ^ 62.
Proof.
  intros Hi.
  destruct (rnd_nonneg_pow2 (INR i) 62 ltac:(lia)
              (conj (pos_INR i) Hi)) as (u & Hu & Hub).
  rewrite Hu. cbn [Rounded.fdiv]. rewrite Reqb_false by lra.
  apply rnd_nonneg_pow2; [lia|].
  assert (H62 : 0 < 2 ^ 62) by (apply pow_lt; lra).
  split.
  - apply Rmult_le_pos; lra.
  - apply Rle_trans with (u / 1); [|lra].
    unfold Rdiv. apply Rmult_le_compat_l; [lra|].
    apply Rinv_le_contravar; lra.
Qed.

Lemma rounded_time_point_zero :
  Rounded.fdiv A (Rounded.rnd A (INR 0)) (Fin 44100) = Fin 0.
Proof.
  change (INR 0) with 0. rewrite rnd_zero. cbn [Rounded.fdiv].
  rewrite Reqb_false by lra.
  replace (0 / 44100) with 0 by field. apply rnd_zero.
Qed.

End RoundedFacts.

Section RoundedGenerators.
Variable A : Rounded.platform.

Lemma rounded_sine (freq amplitude : float) (d : R) :
  0 <= d * 44100 <= IZR (Rounded.max_samples A) ->
  exists y,
    Rounded.rnd A (d * 44100) = Fin y /\
    0 <= y <= IZR (Rounded.max_samples A) /\
    Rounded.sine A freq amplitude (Fin d)
    = Ok (map (fun i =>
                 Rounded.fmul A amplitude
                   (Rounded.fsin A
                      (Rounded.fmul A
                         (Rounded.fmul A (Rounded.fmul A freq (Fin 2))
                                       Rounded.np_pi)
                         (Rounded.fdiv A (Rounded.rnd A (INR i))
                                       (Fin 44100)))))
              (seq 0 (Z.to_nat (Rceil y)))).
Proof.
  intros Hd. destruct (rounded_time_points A d Hd) as (y & Hy & Hb & Hgen).
  exists y. split; [exact Hy|]. split; [exact Hb|].
  unfold Rounded.sine. rewrite Hgen. cbn [bind]. rewrite map_map. reflexivity.
Qed.

(** C7, as the code has it.  When the product [d * 44100] is not negative
    and within the memory of the machine, [sine] returns [ceil y] samples,
    where [y] is the double the product is rounded to (not the exact
    product); when the product reaches [2^64] the length does not fit in a
    signed 64-bit integer and [sine] raises ValueError. *)
Theorem sine_length_is_ceiling_of_rounded_product
    (freq amplitude : float) (d : R) :
  (0 <= d * 44100 <= IZR (Rounded.max_samples A) ->
   exists y ys,
     Rounded.rnd A (d * 44100) = Fin y /\
     Rounded.sine A freq amplitude (Fin d) = Ok ys /\
     Z.of_nat (length ys) = Rceil y) /\
  (2 ^ 64 <= d * 44100 ->
   Rounded.sine A freq amplitude (Fin d) = Raise ValueError).
Proof.
  split.
  - intros Hd. destruct (rounded_sine freq amplitude d Hd)
      as (y & Hy & Hb & Hs).
    exists y. eexists. split; [exact Hy|]. split; [exact Hs|].
    rewrite length_map, length_seq.
    apply Z2Nat.id, Rceil_nonneg. lra.
  - intros Hd.
    destruct (rnd_ge_fin A (d * 44100) (2 ^ 64) (2 ^ 64) Hd
                (Rounded.rnd_pow2 A 64 ltac:(lia))) as [Hnn Hge].
    unfold Rounded.sine, Rounded.generate_sample_time_points.
    cbn [Rounded.fmul]. rewrite sampling_freq_value.
    pose proof (Rounded.rnd_not_nan A (d * 44100)) as Hnan.
    destruct (Rounded.rnd A (d * 44100)) as [| | |y]; try congruence;
      [reflexivity|].
    specialize (Hge y eq_refl).
    rewrite (rounded_arange_out_of_range A y (or_intror Hge)). reflexivity.
Qed.

(** The phase factor [freq * 2 * np.pi] is finite as long as the frequency
    leaves two binades and a factor 4 of room. *)
Lemma rounded_phase_factor (f : R) (k : nat) :
  (k + 3 <= 1023)%nat -> Rabs f <= 2 ^ k ->
  exists w,
    Rounded.fmul A (Rounded.fmul A (Fin f) (Fin 2)) Rounded.np_pi = Fin w /\
    Rabs w <= 2 ^ (k + 3).
Proof.
  intros Hk Hf.
  assert (Hpk : 0 < 2 ^ k) by (apply pow_lt; lra).
  destruct (rnd_bounded_pow2 A (f * 2) (k + 1) ltac:(lia)) as (f2 & Hf2 & Hb2).
  { rewrite Rabs_mult, (Rabs_pos_eq 2) by lra.
    replace (k + 1)%nat with (S k) by lia. simpl. lra. }
  cbn [Rounded.fmul]. rewrite Hf2. unfold Rounded.np_pi. cbn [Rounded.fmul].
  apply rnd_bounded_pow2; [lia|].
  rewrite Rabs_mult.
  rewrite (Rabs_pos_eq (884279719003555 / 281474976710656)) by lra.
  replace (k + 3)%nat with (2 + (k + 1))%nat by lia.
  rewrite pow_add.
  assert (H4 : 2 ^ 2 = 4) by (simpl; lra). rewrite H4.
  assert (Hp1 : 0 < 2 ^ (k + 1)) by (apply pow_lt; lra).
  pose proof (Rabs_pos f2) as Hf2pos.
  apply Rle_trans with (Rabs f2 * 4).
  - apply Rmult_le_compat_l; lra.
  - lra.
Qed.

(** The phase of a time point, when nothing overflows. *)
Lemma rounded_phase (f : R) (i : nat) :
  Rabs f <= 2 ^ 900 -> INR i <= 2 ^ 62 ->
  exists p,
    Rounded.fmul A
      (Rounded.fmul A (Rounded.fmul A (Fin f) (Fin 2)) Rounded.np_pi)
      (Rounded.fdiv A (Rounded.rnd A (INR i)) (Fin 44100))
    = Fin p.
Proof.
  intros Hf Hi.
  destruct (rounded_phase_factor f 900 ltac:(lia) Hf) as (w & Hw & Hwb).
  change (900 + 3)%nat with 903%nat in Hwb.
  destruct (rounded_time_point_finite A i Hi) as (t & Ht & Htb).
  rewrite Hw, Ht. cbn [Rounded.fmul].
  destruct (rnd_bounded_pow2 A (w * t) (903 + 62) ltac:(lia)) as (p & Hp & _).
  - rewrite Rabs_mult, (Rabs_pos_eq t) by lra. rewrite pow_add.
    assert (H1 : 0 < 2 ^ 903) by (apply pow_lt; lra).
    assert (H2 : 0 < 2 ^ 62) by (apply pow_lt; lra).
    pose proof (Rabs_pos w).
    apply Rmult_le_compat; lra.
  - exists p. exact Hp.
Qed.

End RoundedGenerators.

Section RoundedWaves.
Variable A : Rounded.platform.


(** A frequency whose double overflows: the first sample is NaN, whatever
    the amplitude. *)
Lemma rounded_sine_overflow (f : R) (amplitude : float) (d : R) :
  2 ^ 1023 <= f -> 1 <= d * 44100 <= IZR (Rounded.max_samples A) ->
  exists ys,
    Rounded.sine A (Fin f) amplitude (Fin d) = Ok ys /\
    nth_error ys 0%nat = Some NaN.
Proof.
  intros Hf Hd.
  destruct (rounded_sine A (Fin f) amplitude d ltac:(lra))
    as (y & Hy & Hb & Hs).
  eexists. split; [exact Hs|].
  assert (Hypos : 0 < y).
  { destruct (rnd_ge_fin A (d * 44100) 1 1) as [_ Hge];
      [lra | apply (Rounded.rnd_int A 1); discriminate|].
    specialize (Hge y Hy). lra. }
  pose proof (Rceil_pos y Hypos) as Hc.
  destruct (Z.to_nat (Rceil y)) as [|n] eqn:En; [lia|].
  cbn [seq map nth_error]. f_equal.
  rewrite rounded_time_point_zero.
  assert (Hover : Rounded.fmul A (Fin f) (Fin 2) = PInf).
  { cbn [Rounded.fmul]. apply Rounded.rnd_overflow.
    assert (E : 2 ^ 1024 = 2 * 2 ^ 1023) by reflexivity. lra. }
  rewrite Hover. unfold Rounded.np_pi. cbn [Rounded.fmul].
  rewrite Reqb_false, Rltb_false by lra. cbn [inf_of Rounded.fmul].
  rewrite Reqb_true. cbn [Rounded.fsin].
  destruct amplitude; reflexivity.
Qed.

Lemma rounded_square_sample (f a : R) (i : nat) :
  Rounded.representable A a -> Rabs f <= 2 ^ 900 -> INR i <= 2 ^ 62 ->
  exists v,
    Rounded.fmul A (Fin a)
      (fsign
         (Rounded.fmul A (Fin 1)
            (Rounded.fsin A
               (Rounded.fmul A
                  (Rounded.fmul A (Rounded.fmul A (Fin f) (Fin 2))
                                Rounded.np_pi)
                  (Rounded.fdiv A (Rounded.rnd A (INR i)) (Fin 44100))))))
    = Fin v /\ (v = - a \/ v = 0 \/ v = a).
Proof.
  intros Ha Hf Hi.
  destruct (rounded_phase A f i Hf Hi) as (p & Hp). rewrite Hp.
  cbn [Rounded.fsin Rounded.fmul].
  pose proof (Rounded.libm_sin_bound A p) as Hs.
  destruct (rnd_int_between A (1 * Rounded.libm_sin A p) (-1) 1)
    as (v1 & Hv1 & _); [discriminate | discriminate | lra|].
  rewrite Hv1. cbn [fsign].
  destruct (Rltb v1 0); [|destruct (Rltb 0 v1)]; cbn [Rounded.fmul].
  - exists (- a). split; [|auto].
    replace (a * -1) with (- a) by ring. apply representable_opp, Ha.
  - exists a. split; [|auto].
    rewrite Rmult_1_r. exact Ha.
  - exists 0. split; [|auto].
    rewrite Rmult_0_r. apply rnd_zero.
Qed.

(** C9, as the code has it.  For an amplitude [a] that is a double, a
    frequency with [|f| <= 2^900] (the phase then cannot overflow) and a
    product [d * 44100] that is not negative and within the memory of the
    machine, [square] returns a signal whose samples are all finite, each
    one [-a], [0] or [a]. *)
Theorem square_sample_values_without_overflow (f a d : R) :
  Rounded.representable A a -> Rabs f <= 2 ^ 900 ->
  0 <= d * 44100 <= IZR (Rounded.max_samples A) ->
  exists ys,
    Rounded.square A (Fin f) (Fin a) (Fin d) = Ok (map Fin ys) /\
    Forall (fun y => y = - a \/ y = 0 \/ y = a) ys.
Proof.
  intros Ha Hf Hd.
  destruct (rounded_sine A (Fin f) (Fin 1) d Hd) as (y & Hy & Hb & Hs).
  set (h := fun i : nat =>
              Rounded.fmul A (Fin a)
                (fsign
                   (Rounded.fmul A (Fin 1)
                      (Rounded.fsin A
                         (Rounded.fmul A
                            (Rounded.fmul A (Rounded.fmul A (Fin f) (Fin 2))
                                          Rounded.np_pi)
                            (Rounded.fdiv A (Rounded.rnd A (INR i))
                                          (Fin 44100))))))).
  assert (Hh : forall i, In i (seq 0 (Z.to_nat (Rceil y))) ->
                 exists v, h i = Fin v /\ (v = - a \/ v = 0 \/ v = a)).
  { intros i Hin. apply in_seq in Hin.
    assert (Hi : INR i < y) by (apply lt_sample_count; lia).
    pose proof (max_samples_le_pow2 A) as Hcap.
    apply rounded_square_sample; [exact Ha | exact Hf | lra]. }
  exists (map (fun i => val_of (h i)) (seq 0 (Z.to_nat (Rceil y)))). split.
  - unfold Rounded.square. rewrite Hs. cbn [bind]. rewrite !map_map.
    f_equal. apply map_ext_in. intros i Hin.
    destruct (Hh i Hin) as (v & Hv & _).
    fold (h i). rewrite Hv. reflexivity.
  - apply Forall_forall. intros v Hin.
    apply in_map_iff in Hin. destruct Hin as (i & <- & Hin).
    destruct (Hh i Hin) as (v & Hv & Hcases).
    rewrite Hv. exact Hcases.
Qed.

Lemma rounded_square_overflow (f : R) (amplitude : float) (d : R) :
  2 ^ 1023 <= f -> 1 <= d * 44100 <= IZR (Rounded.max_samples A) ->
  exists ys,
    Rounded.square A (Fin f) amplitude (Fin d) = Ok ys /\
    nth_error ys 0%nat = Some NaN.
Proof.
  intros Hf Hd.
  destruct (rounded_sine_overflow f (Fin 1) d Hf Hd) as (s & Hs & H0).
  unfold Rounded.square. rewrite Hs. cbn [bind].
  eexists. split; [reflexivity|].
  rewrite nth_error_map, H0. cbn [option_map fsign].
  destruct amplitude; reflexivity.
Qed.

End RoundedWaves.

Lemma overflowing_frequency : 2 ^ 1023 <= 10 ^ 308.
Proof. rewrite !pow_IZR. apply IZR_le. vm_compute. discriminate. Qed.

Lemma one_second_is_in_range :
  1 <= 1 * 44100 <= IZR (Rounded.max_samples Rounded.saturating).
Proof.
  split; [lra|].
  replace (1 * 44100) with (IZR 44100) by lra.
  apply IZR_le. vm_compute. discriminate.
Qed.


(** C9 as stated fails for the same frequency: the first sample of
    [square] is NaN, none of [-a], [0], [a]. *)
Lemma square_first_sample_nan_at_overflow :
  exists ys,
    Rounded.square Rounded.saturating (Fin (10 ^ 308)) (Fin 1) (Fin 1)
      = Ok ys /\
    nth_error ys 0%nat = Some NaN /\
    NaN <> Fin (-1) /\ NaN <> Fin 0 /\ NaN <> Fin 1.
Proof.
  destruct (rounded_square_overflow Rounded.saturating (10 ^ 308) (Fin 1) 1
              overflowing_frequency one_second_is_in_range) as (ys & Hs & H0).
  exists ys. repeat split; try discriminate; assumption.
Qed.

(** ** Rounded normalisation *)

Section RoundedNormalize.
Variable A : Rounded.platform.

Lemma val_rnd_opp (z : R) :
  val_of (Rounded.rnd A (- z)) = - val_of (Rounded.rnd A z).
Proof.
  rewrite Rounded.rnd_opp.
  destruct (Rounded.rnd A z); simpl; ring.
Qed.

Lemma val_rnd_finite (z : R) :
  Rabs z <= 2 ^ 1023 -> Rounded.rnd A z = Fin (val_of (Rounded.rnd A z)).
Proof.
  intros Hz.
  destruct (rnd_bounded_pow2 A z 1023 ltac:(lia) Hz) as (y & Hy & _).
  rewrite Hy. reflexivity.
Qed.

Lemma val_rnd_monotone (a b : R) :
  Rabs a <= 2 ^ 1023 -> Rabs b <= 2 ^ 1023 -> a <= b ->
  val_of (Rounded.rnd A a) <= val_of (Rounded.rnd A b).
Proof.
  intros Ha Hb Hab.
  pose proof (Rounded.rnd_monotone A a b Hab) as Hm.
  rewrite (val_rnd_finite a Ha), (val_rnd_finite b Hb) in Hm. exact Hm.
Qed.

Lemma val_rnd_nonneg (z : R) :
  0 <= z <= 2 ^ 1023 -> 0 <= val_of (Rounded.rnd A z).
Proof.
  intros Hz.
  assert (H0 : val_of (Rounded.rnd A 0) = 0) by (rewrite rnd_zero; reflexivity).
  rewrite <- H0. apply val_rnd_monotone; try lra.
  - rewrite Rabs_R0. apply pow_le. lra.
  - rewrite Rabs_pos_eq; lra.
Qed.

(** Rounding commutes with the absolute value. *)
Lemma val_rnd_abs (z : R) :
  Rabs z <= 2 ^ 1023 ->
  Rabs (val_of (Rounded.rnd A z)) = val_of (Rounded.rnd A (Rabs z)).
Proof.
  intros Hz. unfold Rabs at 2. destruct (Rcase_abs z) as [Hneg|Hpos].
  - rewrite (Rabs_left z) in Hz by lra.
    rewrite <- (Ropp_involutive z) at 1. rewrite val_rnd_opp, Rabs_Ropp.
    apply Rabs_pos_eq, val_rnd_nonneg. lra.
  - rewrite (Rabs_pos_eq z) in Hz by lra.
    apply Rabs_pos_eq, val_rnd_nonneg. lra.
Qed.

Lemma Rmax_abs_le (l : list R) (M : R) :
  0 <= M -> (forall x, In x l -> Rabs x <= M) -> Rmax_abs l <= M.
Proof.
  intros HM. induction l as [|x r IH]; intros Hall; simpl; [exact HM|].
  apply Rmax_lub.
  - apply Hall. left. reflexivity.
  - apply IH. intros y Hy. apply Hall. right. exact Hy.
Qed.

(** The peak of the scaled and rounded samples is the rounded scaled peak:
    rounding is monotone and symmetric, so the largest sample stays the
    largest. *)
Lemma rounded_scaled_peak (c M : R) (l : list R) :
  0 <= M -> Rabs c * M <= 2 ^ 1023 ->
  (forall x, In x l -> Rabs x <= M) ->
  Rmax_abs (map (fun x => val_of (Rounded.rnd A (c * x))) l)
  = val_of (Rounded.rnd A (Rabs c * Rmax_abs l)).
Proof.
  intros HM Hc. induction l as [|x r IH]; intros Hall.
  - simpl. rewrite Rmult_0_r, rnd_zero. reflexivity.
  - cbn [map Rmax_abs].
    assert (Hx : Rabs x <= M) by (apply Hall; left; reflexivity).
    assert (Hr : forall y, In y r -> Rabs y <= M)
      by (intros y Hy; apply Hall; right; exact Hy).
    pose proof (Rmax_abs_le r M HM Hr) as HrM.
    pose proof (Rmax_abs_nonneg r) as Hr0.
    pose proof (Rabs_pos c) as Hc0. pose proof (Rabs_pos x) as Hx0.
    assert (Hb1 : Rabs c * Rabs x <= 2 ^ 1023).
    { apply Rle_trans with (Rabs c * M); [|exact Hc].
      apply Rmult_le_compat_l; assumption. }
    assert (Hb2 : Rabs c * Rmax_abs r <= 2 ^ 1023).
    { apply Rle_trans with (Rabs c * M); [|exact Hc].
      apply Rmult_le_compat_l; assumption. }
    rewrite (IH Hr), val_rnd_abs by (rewrite Rabs_mult; exact Hb1).
    rewrite Rabs_mult.
    assert (Hp1 : 0 <= Rabs c * Rabs x) by (apply Rmult_le_pos; assumption).
    assert (Hp2 : 0 <= Rabs c * Rmax_abs r)
      by (apply Rmult_le_pos; assumption).
    unfold Rmax at 2. destruct (Rle_dec (Rabs x) (Rmax_abs r)) as [Hle|Hgt].
    + apply Rmax_right, val_rnd_monotone.
      * rewrite Rabs_pos_eq; assumption.
      * rewrite Rabs_pos_eq; assumption.
      * apply Rmult_le_compat_l; assumption.
    + apply Rmax_left, val_rnd_monotone.
      * rewrite Rabs_pos_eq; assumption.
      * rewrite Rabs_pos_eq; assumption.
      * apply Rmult_le_compat_l; [assumption | lra].
Qed.

Lemma rounded_normalize_structure (xs : list R) (t : R) :
  Rmax_abs xs <> 0 ->
  Rounded.normalize A (map Fin xs) (Fin t)
  = Ok (map (fun x => Rounded.fmul A (Rounded.rnd A (t / Rmax_abs xs))
                                   (Fin x)) xs).
Proof.
  intros Hpeak. unfold Rounded.normalize.
  assert (Hne : xs <> []) by (intros ->; apply Hpeak; reflexivity).
  rewrite (py_max_abs _ Hne). cbn [bind Rounded.fdiv].
  rewrite (Reqb_false _ _ Hpeak), map_map. reflexivity.
Qed.

End RoundedNormalize.

Section RoundedNormalizeClaim.
Variable A : Rounded.platform.

Lemma rounding_unit_facts :
  0 < / 2 ^ 53 /\ / 2 ^ 53 <= / 4 /\ 4 * / 2 ^ 53 = / 2 ^ 51 /\
  / 2 ^ 1022 = / 2 ^ 1021 / 2 /\ 0 < / 2 ^ 1021 /\
  2 ^ 1023 = 2 * 2 ^ 1022 /\ 0 < 2 ^ 1022.
Proof.
  assert (H51 : 0 < 2 ^ 51) by (apply pow_lt; lra).
  assert (H1021 : 0 < 2 ^ 1021) by (apply pow_lt; lra).
  assert (H1022 : 0 < 2 ^ 1022) by (apply pow_lt; lra).
  assert (E53 : 2 ^ 53 = 4 * 2 ^ 51) by (change (2 ^ 53) with (2 * (2 * 2 ^ 51)); ring).
  assert (E1022 : 2 ^ 1022 = 2 * 2 ^ 1021) by reflexivity.
  assert (E1023 : 2 ^ 1023 = 2 * 2 ^ 1022) by reflexivity.
  assert (Hi51 : 0 < / 2 ^ 51) by (apply Rinv_0_lt_compat; exact H51).
  assert (Hi51' : / 2 ^ 51 <= 1).
  { rewrite <- Rinv_1. apply Rinv_le_contravar; [lra|].
    apply pow_R1_Rle. lra. }
  assert (Hu : / 2 ^ 53 = / 4 * / 2 ^ 51)
    by (rewrite E53, Rinv_mult; reflexivity).
  split; [rewrite Hu; lra|]. split; [rewrite Hu; lra|].
  split; [rewrite Hu; lra|].
  split; [rewrite E1022, Rinv_mult; lra|].
  split; [apply Rinv_0_lt_compat; exact H1021|].
  split; [exact E1023 | exact H1022].
Qed.

(** C6, as the code has it.  For a real signal of non-zero peak [M] and a
    target [t] such that neither [t] nor [t / M] leaves the normal range of
    the format, [normalize] multiplies every sample by one coefficient [c],
    the double of [t / M], each product being rounded; the peak of the result
    is [|t|] up to a relative error of [2^-51]. *)
Theorem normalize_peak_within_rounding (xs : list R) (t : R) :
  Rmax_abs xs <> 0 ->
  / 2 ^ 1021 <= Rabs t <= 2 ^ 1022 ->
  / 2 ^ 1021 <= Rabs (t / Rmax_abs xs) <= 2 ^ 1022 ->
  exists c ys,
    Rounded.rnd A (t / Rmax_abs xs) = Fin c /\
    Rabs (c - t / Rmax_abs xs) <= / 2 ^ 53 * Rabs (t / Rmax_abs xs) /\
    Rounded.normalize A (map Fin xs) (Fin t) = Ok (map Fin ys) /\
    length ys = length xs /\
    (forall i x y, nth_error xs i = Some x -> nth_error ys i = Some y ->
                   Rounded.rnd A (c * x) = Fin y) /\
    Rabs (Rmax_abs ys - Rabs t) <= / 2 ^ 51 * Rabs t.
Proof.
  intros Hpeak Ht Hq.
  destruct rounding_unit_facts as (Hu0 & Hu4 & Hu51 & He' & He & E1023 & HB).
  pose proof (Rmax_abs_nonneg xs) as HM0.
  assert (HM : 0 < Rmax_abs xs) by lra.
  set (M := Rmax_abs xs) in *. set (q := t / M) in *.
  (* the coefficient *)
  destruct (rnd_bounded_pow2 A q 1022 ltac:(lia) (proj2 Hq))
    as (c & Hc & Hcb).
  assert (Herr1 : Rabs (c - q) <= / 2 ^ 53 * Rabs q)
    by (apply (Rounded.rnd_error A q c Hc); lra).
  assert (HqM : Rabs q * M = Rabs t).
  { unfold q, Rdiv. rewrite Rabs_mult, Rabs_inv, (Rabs_pos_eq M) by lra.
    field. lra. }
  pose proof (Rabs_pos c) as Hc0. pose proof (Rabs_pos q) as Hq0.
  pose proof (Rabs_pos t) as Ht0.
  assert (Hcq : Rabs (Rabs c - Rabs q) <= / 2 ^ 53 * Rabs q).
  { eapply Rle_trans; [apply Rabs_triang_inv2 | exact Herr1]. }
  assert (HcM : Rabs (Rabs c * M - Rabs t) <= / 2 ^ 53 * Rabs t).
  { rewrite <- HqM.
    replace (Rabs c * M - Rabs q * M) with ((Rabs c - Rabs q) * M) by ring.
    rewrite Rabs_mult, (Rabs_pos_eq M) by lra.
    replace (/ 2 ^ 53 * (Rabs q * M)) with (/ 2 ^ 53 * Rabs q * M) by ring.
    apply Rmult_le_compat_r; lra. }
  assert (HcMr : Rabs t - / 2 ^ 53 * Rabs t <= Rabs c * M
                 <= Rabs t + / 2 ^ 53 * Rabs t).
  { unfold Rabs in HcM at 1.
    destruct (Rcase_abs (Rabs c * M - Rabs t)); lra. }
  assert (Hut : 0 <= / 2 ^ 53 * Rabs t <= / 4 * Rabs t).
  { split; [apply Rmult_le_pos; lra|].
    apply Rmult_le_compat_r; lra. }
  assert (HcMhi : Rabs c * M <= 2 ^ 1023) by lra.
  assert (HcMlo : / 2 ^ 1022 <= Rabs c * M) by lra.
  assert (Hxs : forall x, In x xs -> Rabs x <= M)
    by (intros x Hin; apply Rmax_abs_upper; exact Hin).
  assert (Hfin : forall x, In x xs ->
                   Rounded.rnd A (c * x)
                   = Fin (val_of (Rounded.rnd A (c * x)))).
  { intros x Hin. apply val_rnd_finite. rewrite Rabs_mult.
    apply Rle_trans with (Rabs c * M); [|exact HcMhi].
    apply Rmult_le_compat_l; [exact Hc0 | apply Hxs, Hin]. }
  exists c, (map (fun x => val_of (Rounded.rnd A (c * x))) xs).
  split; [exact Hc|]. split; [exact Herr1|]. split; [|split; [|split]].
  - rewrite (rounded_normalize_structure A xs t Hpeak).
    fold M. fold q. rewrite Hc, map_map. f_equal.
    apply map_ext_in. intros x Hin. cbn [Rounded.fmul]. apply Hfin, Hin.
  - apply length_map.
  - intros i x y Hx. rewrite nth_error_map, Hx. cbn [option_map].
    intros Hy. injection Hy as <-. apply Hfin.
    eapply nth_error_In, Hx.
  - rewrite (rounded_scaled_peak A c M xs HM0 HcMhi Hxs). fold M.
    assert (Hpk : Rounded.rnd A (Rabs c * M)
                  = Fin (val_of (Rounded.rnd A (Rabs c * M)))).
    { apply val_rnd_finite. rewrite Rabs_pos_eq; [exact HcMhi|].
      apply Rmult_le_pos; lra. }
    assert (HcMabs : Rabs (Rabs c * M) = Rabs c * M)
      by (apply Rabs_pos_eq, Rmult_le_pos; lra).
    pose proof (Rounded.rnd_error A _ _ Hpk) as Herr2.
    rewrite HcMabs in Herr2. specialize (Herr2 HcMlo).
    set (P := val_of (Rounded.rnd A (Rabs c * M))) in *.
    replace (P - Rabs t) with ((P - Rabs c * M) + (Rabs c * M - Rabs t))
      by ring.
    eapply Rle_trans; [apply Rabs_triang|].
    assert (Hlast : / 2 ^ 53 * (Rabs c * M) <= 2 * (/ 2 ^ 53 * Rabs t)).
    { replace (2 * (/ 2 ^ 53 * Rabs t)) with (/ 2 ^ 53 * (2 * Rabs t)) by ring.
      apply Rmult_le_compat_l; lra. }
    rewrite <- Hu51. lra.
Qed.

End RoundedNormalizeClaim.

(** ** Rounded codec *)

Section RoundedCodec.
Variable A : Rounded.platform.
Variable invalid_cast : float -> Z.

(** The product of a clipped sample by 32767 is rounded to a double of
    magnitude at most 32767, and the conversion to int16 truncates it. *)
Lemma rounded_astype_scaled (c : R) :
  -1 <= c <= 1 ->
  exists y,
    Rounded.rnd A (c * 32767) = Fin y /\ Rabs y <= 32767 /\
    astype_i2 invalid_cast
      (Rounded.fmul A (Fin c) (Fin (IZR MAX_INT_SAMPLE_VALUE)))
    = Rtrunc y.
Proof.
  intros Hc.
  destruct (rnd_int_between A (c * 32767) (-32767) 32767)
    as (y & Hy & Hb); [discriminate | discriminate | lra|].
  exists y. split; [exact Hy|].
  assert (Habs : Rabs y <= IZR 32767)
    by (unfold Rabs; destruct (Rcase_abs y); lra).
  split; [exact Habs|].
  cbn [Rounded.fmul]. change (IZR MAX_INT_SAMPLE_VALUE) with 32767.
  rewrite Hy. cbn [astype_i2]. cbv zeta.
  pose proof (Rtrunc_range y 32767 Habs) as Hk.
  destruct (Z.leb_spec (-32768) (Rtrunc y));
    destruct (Z.leb_spec (Rtrunc y) 32767);
    simpl; try reflexivity; lia.
Qed.

Lemma rounded_convert_to_bytes_index (samples : Signal)
    (i : nat) (s : float) (c : R) :
  nth_error samples i = Some s -> clip_value s = Some c ->
  exists y,
    Rounded.rnd A (c * 32767) = Fin y /\ Rabs y <= 32767 /\
    nth_error (Rounded.convert_to_bytes A invalid_cast samples) (2 * i)
      = Some (byte_of_Z (Rtrunc y mod 65536)) /\
    nth_error (Rounded.convert_to_bytes A invalid_cast samples) (2 * i + 1)
      = Some (byte_of_Z (Rtrunc y mod 65536 / 256)).
Proof.
  intros Hi Hclip.
  destruct (np_clip_value s c Hclip) as [Hnp Hc].
  destruct (rounded_astype_scaled c Hc) as (y & Hy & Hb & Hk).
  exists y. split; [exact Hy|]. split; [exact Hb|].
  apply nth_error_tobytes.
  rewrite !nth_error_map, Hi. cbn [option_map].
  rewrite Hnp, Hk. reflexivity.
Qed.

Lemma rounded_convert_to_bytes_one_minus_one :
  Rounded.convert_to_bytes A invalid_cast [Fin 1; Fin (-1)]
  = [xff; x7f; x01; x80].
Proof.
  unfold Rounded.convert_to_bytes. cbn [map np_clip Rounded.fmul].
  change (IZR MAX_INT_SAMPLE_VALUE) with 32767.
  assert (H1 : Rmin (Rmax 1 (-1)) 1 * 32767 = IZR 32767).
  { rewrite Rmax_left, Rmin_left by lra. lra. }
  assert (H2 : Rmin (Rmax (-1) (-1)) 1 * 32767 = IZR (-32767)).
  { rewrite Rmax_left, Rmin_left by lra. lra. }
  rewrite H1, H2.
  rewrite !(Rounded.rnd_int A) by discriminate.
  cbn [astype_i2]. rewrite !Rtrunc_IZR. reflexivity.
Qed.

(** C1.  For every list of samples the output holds exactly two bytes per
    sample.  A sample at index [i] that is not NaN is clipped to a value [c]
    of [-1, 1]; the product [c * 32767], rounded to the double [y] as the
    code computes it, is truncated toward zero to an integer [k] of the
    signed 16-bit range, and bytes [2 i] and [2 i + 1] of the output are the
    low and the high byte of [k] in two's complement.  In particular the
    samples [1.0, -1.0] give the bytes FF 7F 01 80. *)
Theorem convert_to_bytes_rounded_layout (samples : Signal) :
  length (Rounded.convert_to_bytes A invalid_cast samples)
    = (2 * length samples)%nat /\
  (forall i s c, nth_error samples i = Some s -> clip_value s = Some c ->
     exists y k lo hi,
       -1 <= c <= 1 /\
       Rounded.rnd A (c * 32767) = Fin y /\
       truncates_toward_zero y k /\
       (-32767 <= k <= 32767)%Z /\
       nth_error (Rounded.convert_to_bytes A invalid_cast samples) (2 * i)
         = Some lo /\
       nth_error (Rounded.convert_to_bytes A invalid_cast samples)
                 (2 * i + 1) = Some hi /\
       le16_unsigned lo hi = (k mod 65536)%Z /\
       int16_of_le lo hi = k) /\
  Rounded.convert_to_bytes A invalid_cast [Fin 1; Fin (-1)]
    = [xff; x7f; x01; x80].
Proof.
  split; [|split].
  - unfold Rounded.convert_to_bytes.
    rewrite length_tobytes, !length_map. reflexivity.
  - intros i s c Hi Hclip.
    destruct (rounded_convert_to_bytes_index samples i s c Hi Hclip)
      as (y & Hy & Hb & Hlo & Hhi).
    pose proof (Rtrunc_range y 32767 Hb) as Hk.
    exists y, (Rtrunc y), (byte_of_Z (Rtrunc y mod 65536)),
      (byte_of_Z (Rtrunc y mod 65536 / 256)).
    split; [exact (proj2 (np_clip_value s c Hclip))|].
    split; [exact Hy|]. split; [apply Rtrunc_spec|]. split; [exact Hk|].
    split; [exact Hlo|]. split; [exact Hhi|].
    split; [apply le16_unsigned_to_le | apply int16_of_to_le; lia].
  - apply rounded_convert_to_bytes_one_minus_one.
Qed.

(** X19. Interleaving then encoding lays the channels out frame by frame:
    the buffer holds [2 * C * L] bytes ([C] channels, [L] the shortest
    length), and the two bytes at offset [2 * (i * C + c)] are sample [i] of
    channel [c], clipped, scaled with the rounded product and truncated, low
    byte first. *)
Theorem rounded_encoded_frames_layout (channels : list Signal) :
  length (Rounded.convert_to_bytes A invalid_cast (merge_channels channels))
    = (2 * (length channels * min_length channels))%nat /\
  forall i c ch s v,
    (i < min_length channels)%nat ->
    nth_error channels c = Some ch -> nth_error ch i = Some s ->
    clip_value s = Some v ->
    exists y,
      Rounded.rnd A (v * 32767) = Fin y /\
      nth_error (Rounded.convert_to_bytes A invalid_cast
                   (merge_channels channels))
                (2 * (i * length channels + c))
        = Some (byte_of_Z (Rtrunc y mod 65536)) /\
      nth_error (Rounded.convert_to_bytes A invalid_cast
                   (merge_channels channels))
                (2 * (i * length channels + c) + 1)
        = Some (byte_of_Z (Rtrunc y mod 65536 / 256)).
Proof.
  destruct (merge_channels_spec channels) as [Hlen Hidx]. split.
  - unfold Rounded.convert_to_bytes.
    rewrite length_tobytes, !length_map, Hlen. reflexivity.
  - intros i c ch s v Hi Hch Hs Hclip.
    assert (Hc : (c < length channels)%nat).
    { apply (proj1 (nth_error_Some channels c)).
      intros E. pose proof (eq_trans (eq_sym E) Hch) as X. discriminate X. }
    destruct (Hidx i c Hi Hc) as (ch' & x & H1 & H2 & H3).
    pose proof (eq_trans (eq_sym H1) Hch) as E1. injection E1 as ->.
    pose proof (eq_trans (eq_sym H2) Hs) as E2. injection E2 as ->.
    destruct (rounded_convert_to_bytes_index _ _ s v H3 Hclip)
      as (y & Hy & _ & Hlo & Hhi).
    exists y. split; [exact Hy|]. split; [exact Hlo | exact Hhi].
Qed.

End RoundedCodec.

Section RoundedGeneratorEdges.
Variable A : Rounded.platform.

Lemma representable_abs (a : R) :
  Rounded.representable A a ->
  Rounded.rnd A (Rabs a) = Fin (Rabs a) /\
  Rounded.rnd A (- Rabs a) = Fin (- Rabs a).
Proof.
  intros Ha. unfold Rabs. destruct (Rcase_abs a).
  - split; [apply representable_opp, Ha|].
    rewrite Ropp_involutive. exact Ha.
  - split; [exact Ha | apply representable_opp, Ha].
Qed.

Lemma rounded_index_exact (i : nat) :
  INR i <= IZR (Rounded.max_samples A) ->
  Rounded.rnd A (INR i) = Fin (INR i).
Proof.
  intros Hi. rewrite INR_IZR_INZ in *.
  apply Rounded.rnd_int.
  destruct (Rounded.max_samples_range A) as [_ Hm].
  apply le_IZR in Hi. rewrite Z.abs_eq by apply Nat2Z.is_nonneg.
  eapply Z.le_trans; [exact Hi | exact Hm].
Qed.

(** X4. For a duration [d] that is a double, with a product [d * 44100]
    that is not negative and within the memory of the machine, the time axis
    spans the duration: there is a point at index [i] exactly when [i] is
    below the double [y] of the product, [i] is then below the exact product
    as well, the point is the double of [i / 44100] and lies between 0 and
    [d], and the points never decrease. *)
Theorem rounded_time_points_span_duration (d : R) :
  Rounded.representable A d ->
  0 <= d * 44100 <= IZR (Rounded.max_samples A) ->
  exists y ts,
    Rounded.rnd A (d * 44100) = Fin y /\
    Rounded.generate_sample_time_points A (Fin d) = Ok (map Fin ts) /\
    (forall i, (exists t, nth_error ts i = Some t) <-> INR i < y) /\
    (forall i t, nth_error ts i = Some t ->
       Rounded.rnd A (INR i / 44100) = Fin t /\
       INR i < d * 44100 /\ 0 <= t <= d) /\
    (forall i j ti tj, (i <= j)%nat ->
       nth_error ts i = Some ti -> nth_error ts j = Some tj -> ti <= tj).
Proof.
  intros Hrep Hd.
  destruct (rounded_time_points A d Hd) as (y & Hy & Hb & Hgen).
  pose (g := fun i : nat => val_of (Rounded.rnd A (INR i / 44100))).
  assert (Hkey : forall i, INR i < y ->
            INR i < d * 44100 /\
            Rounded.rnd A (INR i) = Fin (INR i) /\
            Rounded.rnd A (INR i / 44100) = Fin (g i) /\
            0 <= g i <= d).
  { intros i Hi.
    assert (Hex : Rounded.rnd A (INR i) = Fin (INR i))
      by (apply rounded_index_exact; lra).
    assert (Hlt : INR i < d * 44100).
    { destruct (Rlt_le_dec (INR i) (d * 44100)) as [H|H]; [exact H|].
      exfalso.
      destruct (rnd_le_fin A (d * 44100) (INR i) (INR i) H Hex) as [_ Hle].
      specialize (Hle y Hy). lra. }
    split; [exact Hlt|]. split; [exact Hex|].
    pose proof (pos_INR i) as Hpos.
    destruct (rnd_between A (INR i / 44100) 0 0 d d) as (t & Ht & Htb);
      [split; lra | apply rnd_zero | exact Hrep |].
    unfold g. rewrite Ht. split; [reflexivity | exact Htb]. }
  assert (Hnth : forall i t,
            nth_error (map g (seq 0 (Z.to_nat (Rceil y)))) i = Some t ->
            INR i < y /\ t = g i).
  { intros i t. rewrite nth_error_map, nth_error_seq.
    destruct (Nat.ltb_spec i (Z.to_nat (Rceil y))) as [Hlt|Hge];
      [|discriminate].
    cbn [option_map Nat.add]. intros H. injection H as <-.
    split; [apply lt_sample_count; exact Hlt | reflexivity]. }
  exists y, (map g (seq 0 (Z.to_nat (Rceil y)))).
  split; [exact Hy|]. split; [|split; [|split]].
  - rewrite Hgen, map_map. f_equal. apply map_ext_in. intros i Hin.
    apply in_seq in Hin.
    assert (Hi : INR i < y) by (apply lt_sample_count; lia).
    destruct (Hkey i Hi) as (_ & Hex & Hval & _).
    rewrite Hex. cbn [Rounded.fdiv]. rewrite Reqb_false by lra. exact Hval.
  - intros i. split.
    + intros [t Ht]. apply (Hnth i t Ht).
    + intros Hi. apply lt_sample_count in Hi.
      rewrite nth_error_map, nth_error_seq.
      rewrite (proj2 (Nat.ltb_lt _ _) Hi). eexists. reflexivity.
  - intros i t Ht. destruct (Hnth i t Ht) as [Hi ->].
    destruct (Hkey i Hi) as (Hlt & _ & Hval & Hrange).
    split; [exact Hval|]. split; [exact Hlt | exact Hrange].
  - intros i j ti tj Hij Hti Htj.
    destruct (Hnth i ti Hti) as [Hi ->]. destruct (Hnth j tj Htj) as [Hj ->].
    destruct (Hkey i Hi) as (_ & _ & Hvi & _).
    destruct (Hkey j Hj) as (_ & _ & Hvj & _).
    assert (Hle : INR i / 44100 <= INR j / 44100).
    { apply le_INR in Hij. lra. }
    pose proof (Rounded.rnd_monotone A _ _ Hle) as Hm.
    rewrite Hvi, Hvj in Hm. exact Hm.
Qed.

(** X6. A real duration whose product [d * 44100] lies between [-2^63] and
    0 is no error: the time axis, [sine] and [square] return the empty
    signal, whatever their other arguments.  A product of [-2^64] or less
    raises ValueError instead, because the length does not fit in a signed
    64-bit integer. *)
Theorem rounded_nonpositive_duration (d : R) :
  (- 2 ^ 63 <= d * 44100 <= 0 ->
   Rounded.generate_sample_time_points A (Fin d) = Ok [] /\
   (forall freq amplitude, Rounded.sine A freq amplitude (Fin d) = Ok []) /\
   (forall freq amplitude, Rounded.square A freq amplitude (Fin d) = Ok [])) /\
  (d * 44100 <= - 2 ^ 64 ->
   Rounded.generate_sample_time_points A (Fin d) = Raise ValueError /\
   (forall freq amplitude,
       Rounded.sine A freq amplitude (Fin d) = Raise ValueError) /\
   (forall freq amplitude,
       Rounded.square A freq amplitude (Fin d) = Raise ValueError)).
Proof.
  split.
  - intros Hd.
    destruct (rnd_between A (d * 44100) (- 2 ^ 63) (- 2 ^ 63) 0 0 Hd
                (rnd_neg_pow2 A 63 ltac:(lia)) (rnd_zero A))
      as (y & Hy & Hb).
    assert (Hgen : Rounded.generate_sample_time_points A (Fin d) = Ok []).
    { unfold Rounded.generate_sample_time_points. cbn [Rounded.fmul].
      rewrite sampling_freq_value, Hy, (rounded_arange_nonpositive A y Hb).
      reflexivity. }
    assert (Hsine : forall freq amplitude,
               Rounded.sine A freq amplitude (Fin d) = Ok [])
      by (intros; unfold Rounded.sine; rewrite Hgen; reflexivity).
    split; [exact Hgen|]. split; [exact Hsine|].
    intros. unfold Rounded.square. rewrite Hsine. reflexivity.
  - intros Hd.
    assert (Hgen : Rounded.generate_sample_time_points A (Fin d)
                   = Raise ValueError).
    { unfold Rounded.generate_sample_time_points. cbn [Rounded.fmul].
      rewrite sampling_freq_value.
      destruct (rnd_le_fin A (d * 44100) (- 2 ^ 64) (- 2 ^ 64) Hd
                  (rnd_neg_pow2 A 64 ltac:(lia))) as [_ Hle].
      pose proof (Rounded.rnd_not_nan A (d * 44100)) as Hnan.
      destruct (Rounded.rnd A (d * 44100)) as [| | |y]; try congruence;
        try reflexivity.
      specialize (Hle y eq_refl).
      rewrite (rounded_arange_out_of_range A y (or_introl Hle)).
      reflexivity. }
    assert (Hsine : forall freq amplitude,
               Rounded.sine A freq amplitude (Fin d) = Raise ValueError)
      by (intros; unfold Rounded.sine; rewrite Hgen; reflexivity).
    split; [exact Hgen|]. split; [exact Hsine|].
    intros. unfold Rounded.square. rewrite Hsine. reflexivity.
Qed.

Lemma rounded_sine_sample_bounded (f a : R) (i : nat) :
  Rounded.representable A a -> Rabs f <= 2 ^ 900 -> INR i <= 2 ^ 62 ->
  exists v,
    Rounded.fmul A (Fin a)
      (Rounded.fsin A
         (Rounded.fmul A
            (Rounded.fmul A (Rounded.fmul A (Fin f) (Fin 2)) Rounded.np_pi)
            (Rounded.fdiv A (Rounded.rnd A (INR i)) (Fin 44100))))
    = Fin v /\ Rabs v <= Rabs a.
Proof.
  intros Ha Hf Hi.
  destruct (rounded_phase A f i Hf Hi) as (p & Hp). rewrite Hp.
  cbn [Rounded.fsin Rounded.fmul].
  pose proof (Rounded.libm_sin_bound A p) as Hs.
  destruct (representable_abs a Ha) as [Hpos Hneg].
  assert (Hprod : - Rabs a <= a * Rounded.libm_sin A p <= Rabs a).
  { pose proof (Rabs_pos a).
    assert (Hab : Rabs (a * Rounded.libm_sin A p) <= Rabs a).
    { rewrite Rabs_mult. rewrite <- (Rmult_1_r (Rabs a)) at 2.
      apply Rmult_le_compat_l; [assumption|].
      unfold Rabs. destruct (Rcase_abs (Rounded.libm_sin A p)); lra. }
    unfold Rabs in Hab at 1.
    destruct (Rcase_abs (a * Rounded.libm_sin A p)); lra. }
  destruct (rnd_between A _ _ _ _ _ Hprod Hneg Hpos) as (v & Hv & Hb).
  exists v. split; [exact Hv|].
  unfold Rabs at 1. destruct (Rcase_abs v); lra.
Qed.

(** X7. For an amplitude that is a double, a frequency with
    [|f| <= 2^900] and a product [d * 44100] that is not negative and within
    the memory of the machine, every sample of [sine] is finite and does not
    exceed the amplitude in magnitude. *)
Theorem rounded_sine_bounded_by_amplitude (f a d : R) :
  Rounded.representable A a -> Rabs f <= 2 ^ 900 ->
  0 <= d * 44100 <= IZR (Rounded.max_samples A) ->
  exists ys,
    Rounded.sine A (Fin f) (Fin a) (Fin d) = Ok (map Fin ys) /\
    Forall (fun y => Rabs y <= Rabs a) ys.
Proof.
  intros Ha Hf Hd.
  destruct (rounded_sine A (Fin f) (Fin a) d Hd) as (y & Hy & Hb & Hs).
  set (h := fun i : nat =>
              Rounded.fmul A (Fin a)
                (Rounded.fsin A
                   (Rounded.fmul A
                      (Rounded.fmul A (Rounded.fmul A (Fin f) (Fin 2))
                                    Rounded.np_pi)
                      (Rounded.fdiv A (Rounded.rnd A (INR i))
                                    (Fin 44100))))).
  assert (Hh : forall i, In i (seq 0 (Z.to_nat (Rceil y))) ->
                 exists v, h i = Fin v /\ Rabs v <= Rabs a).
  { intros i Hin. apply in_seq in Hin.
    assert (Hi : INR i < y) by (apply lt_sample_count; lia).
    pose proof (max_samples_le_pow2 A) as Hcap.
    apply rounded_sine_sample_bounded; [exact Ha | exact Hf | lra]. }
  exists (map (fun i => val_of (h i)) (seq 0 (Z.to_nat (Rceil y)))). split.
  - rewrite Hs, map_map. f_equal. apply map_ext_in. intros i Hin.
    destruct (Hh i Hin) as (v & Hv & _).
    fold (h i). rewrite Hv. reflexivity.
  - apply Forall_forall. intros v Hin.
    apply in_map_iff in Hin. destruct Hin as (i & <- & Hin).
    destruct (Hh i Hin) as (v & Hv & Hbound).
    rewrite Hv. exact Hbound.
Qed.

Lemma rounded_square_sample_sign (f a : R) (i : nat) :
  Rounded.representable A a -> Rabs f <= 2 ^ 900 -> INR i <= 2 ^ 62 ->
  exists s y,
    Rounded.fmul A (Fin 1)
      (Rounded.fsin A
         (Rounded.fmul A
            (Rounded.fmul A (Rounded.fmul A (Fin f) (Fin 2)) Rounded.np_pi)
            (Rounded.fdiv A (Rounded.rnd A (INR i)) (Fin 44100))))
    = Fin s /\
    Rounded.fmul A (Fin a) (fsign (Fin s)) = Fin y /\
    -1 <= s <= 1 /\
    (s < 0 -> y = - a) /\ (s = 0 -> y = 0) /\ (0 < s -> y = a).
Proof.
  intros Ha Hf Hi.
  destruct (rounded_phase A f i Hf Hi) as (p & Hp). rewrite Hp.
  cbn [Rounded.fsin Rounded.fmul].
  pose proof (Rounded.libm_sin_bound A p) as Hs.
  destruct (rnd_int_between A (1 * Rounded.libm_sin A p) (-1) 1)
    as (s & Hs1 & Hsb); [discriminate | discriminate | lra|].
  rewrite Hs1. exists s. cbn [fsign]. unfold Rltb.
  destruct (Rlt_dec s 0) as [Hneg|Hnneg];
    [|destruct (Rlt_dec 0 s) as [Hpos|Hnpos]]; cbn [Rounded.fmul].
  - exists (- a). split; [reflexivity|]. split.
    + replace (a * -1) with (- a) by ring. apply representable_opp, Ha.
    + split; [exact Hsb|]. repeat split; intros; solve [reflexivity | lra].
  - exists a. split; [reflexivity|]. split.
    + rewrite Rmult_1_r. exact Ha.
    + split; [exact Hsb|]. repeat split; intros; solve [reflexivity | lra].
  - exists 0. split; [reflexivity|]. split.
    + rewrite Rmult_0_r. apply rnd_zero.
    + split; [exact Hsb|]. repeat split; intros; solve [reflexivity | lra].
Qed.

(** X10. For an amplitude [a] that is a double, a frequency with
    [|f| <= 2^900] and a product [d * 44100] that is not negative and within
    the memory of the machine, [square] has one sample per sample of the
    sine of amplitude 1 it is built from, and the sign of that sample decides
    which of the three values it is: [-a] below zero, [0] at zero, [a]
    above. *)
Theorem rounded_square_follows_sign_of_sine (f a d : R) :
  Rounded.representable A a -> Rabs f <= 2 ^ 900 ->
  0 <= d * 44100 <= IZR (Rounded.max_samples A) ->
  exists ss ys,
    Rounded.sine A (Fin f) (Fin 1) (Fin d) = Ok (map Fin ss) /\
    Rounded.square A (Fin f) (Fin a) (Fin d) = Ok (map Fin ys) /\
    length ys = length ss /\
    forall i s y, nth_error ss i = Some s -> nth_error ys i = Some y ->
      -1 <= s <= 1 /\
      (s < 0 -> y = - a) /\ (s = 0 -> y = 0) /\ (0 < s -> y = a).
Proof.
  intros Ha Hf Hd.
  destruct (rounded_sine A (Fin f) (Fin 1) d Hd) as (y0 & Hy & Hb & Hs).
  pose (h := fun i : nat =>
               Rounded.fmul A (Fin 1)
                 (Rounded.fsin A
                    (Rounded.fmul A
                       (Rounded.fmul A (Rounded.fmul A (Fin f) (Fin 2))
                                     Rounded.np_pi)
                       (Rounded.fdiv A (Rounded.rnd A (INR i))
                                     (Fin 44100))))).
  pose (q := fun i : nat => Rounded.fmul A (Fin a) (fsign (h i))).
  assert (Hh : forall i, (i < Z.to_nat (Rceil y0))%nat ->
                 exists s y,
                   h i = Fin s /\ q i = Fin y /\ -1 <= s <= 1 /\
                   (s < 0 -> y = - a) /\ (s = 0 -> y = 0) /\ (0 < s -> y = a)).
  { intros i Hin.
    assert (Hi : INR i < y0) by (apply lt_sample_count; exact Hin).
    pose proof (max_samples_le_pow2 A) as Hcap.
    destruct (rounded_square_sample_sign f a i Ha Hf ltac:(lra))
      as (s & y & H1 & H2 & H3).
    exists s, y. unfold q. fold (h i) in H1. rewrite H1.
    split; [reflexivity|]. split; [exact H2 | exact H3]. }
  exists (map (fun i => val_of (h i)) (seq 0 (Z.to_nat (Rceil y0)))),
         (map (fun i => val_of (q i)) (seq 0 (Z.to_nat (Rceil y0)))).
  assert (Hsine : Rounded.sine A (Fin f) (Fin 1) (Fin d)
                  = Ok (map Fin (map (fun i => val_of (h i))
                                     (seq 0 (Z.to_nat (Rceil y0)))))).
  { rewrite Hs, map_map. f_equal. apply map_ext_in. intros i Hin.
    apply in_seq in Hin.
    destruct (Hh i ltac:(lia)) as (s & y & H1 & _).
    fold (h i). rewrite H1. reflexivity. }
  split; [exact Hsine|]. split; [|split].
  - unfold Rounded.square. rewrite Hs. cbn [bind]. rewrite !map_map.
    f_equal. apply map_ext_in. intros i Hin. apply in_seq in Hin.
    destruct (Hh i ltac:(lia)) as (s & y & _ & H2 & _).
    fold (h i). fold (q i). rewrite H2. reflexivity.
  - rewrite !length_map. reflexivity.
  - intros i s y. rewrite !nth_error_map, nth_error_seq.
    destruct (Nat.ltb_spec i (Z.to_nat (Rceil y0))) as [Hlt|Hge];
      [|discriminate].
    cbn [option_map Nat.add]. intros E1 E2.
    injection E1 as <-. injection E2 as <-.
    destruct (Hh i Hlt) as (s & y & H1 & H2 & H3).
    rewrite H1, H2. exact H3.
Qed.

End RoundedGeneratorEdges.

(** ** The laws are met: instances at concrete inputs *)

Lemma one_second_from_zero :
  0 <= 1 * 44100 <= IZR (Rounded.max_samples Rounded.saturating).
Proof. destruct one_second_is_in_range. split; lra. Qed.

Lemma concert_pitch_is_small : Rabs 440 <= 2 ^ 900.
Proof.
  rewrite Rabs_pos_eq by lra.
  apply Rle_trans with (2 ^ 9); [simpl; lra|].
  apply Rle_pow; [lra | lia].
Qed.

Lemma half_is_representable : Rounded.representable Rounded.saturating (1 / 2).
Proof.
  apply Rounded.saturating_exact.
  rewrite Rabs_pos_eq by lra.
  apply Rle_trans with 1; [lra | apply pow_R1_Rle; lra].
Qed.

Lemma normal_range_facts (x : R) :
  / 4 <= x <= 1 -> / 2 ^ 1021 <= Rabs x <= 2 ^ 1022.
Proof.
  intros Hx. rewrite Rabs_pos_eq by lra. split.
  - apply Rle_trans with (/ 2 ^ 2); [|simpl; lra].
    apply Rinv_le_contravar; [apply pow_lt; lra|].
    apply Rle_pow; [lra | lia].
  - apply Rle_trans with 1; [lra | apply pow_R1_Rle; lra].
Qed.

Lemma convert_to_bytes_rounded_layout_witness :
  nth_error [Fin 1; Fin (-1)] 1 = Some (Fin (-1)) /\
  clip_value (Fin (-1)) = Some (clipped (-1)) /\
  exists y k lo hi,
    -1 <= clipped (-1) <= 1 /\
    Rounded.rnd Rounded.saturating (clipped (-1) * 32767) = Fin y /\
    truncates_toward_zero y k /\
    (-32767 <= k <= 32767)%Z /\
    nth_error (Rounded.convert_to_bytes Rounded.saturating (fun _ => 0%Z)
                 [Fin 1; Fin (-1)]) (2 * 1) = Some lo /\
    nth_error (Rounded.convert_to_bytes Rounded.saturating (fun _ => 0%Z)
                 [Fin 1; Fin (-1)]) (2 * 1 + 1) = Some hi /\
    le16_unsigned lo hi = (k mod 65536)%Z /\
    int16_of_le lo hi = k.
Proof.
  split; [reflexivity|]. split; [reflexivity|].
  exact (proj1 (proj2 (convert_to_bytes_rounded_layout Rounded.saturating
                         (fun _ => 0%Z) [Fin 1; Fin (-1)]))
               1%nat (Fin (-1)) (clipped (-1)) eq_refl eq_refl).
Defined.


Lemma sine_length_is_ceiling_of_rounded_product_witness :
  0 <= 1 * 44100 <= IZR (Rounded.max_samples Rounded.saturating) /\
  exists y ys,
    Rounded.rnd Rounded.saturating (1 * 44100) = Fin y /\
    Rounded.sine Rounded.saturating (Fin 440) (Fin 1) (Fin 1) = Ok ys /\
    Z.of_nat (length ys) = Rceil y.
Proof.
  split; [exact one_second_from_zero|].
  exact (proj1 (sine_length_is_ceiling_of_rounded_product Rounded.saturating
                  (Fin 440) (Fin 1) 1) one_second_from_zero).
Defined.

Lemma square_sample_values_without_overflow_witness :
  Rounded.representable Rounded.saturating (1 / 2) /\
  Rabs 440 <= 2 ^ 900 /\
  0 <= 1 * 44100 <= IZR (Rounded.max_samples Rounded.saturating) /\
  exists ys,
    Rounded.square Rounded.saturating (Fin 440) (Fin (1 / 2)) (Fin 1)
      = Ok (map Fin ys) /\
    Forall (fun y => y = - (1 / 2) \/ y = 0 \/ y = 1 / 2) ys.
Proof.
  split; [exact half_is_representable|].
  split; [exact concert_pitch_is_small|].
  split; [exact one_second_from_zero|].
  exact (square_sample_values_without_overflow Rounded.saturating
           440 (1 / 2) 1 half_is_representable concert_pitch_is_small
           one_second_from_zero).
Defined.

Lemma normalize_peak_within_rounding_witness :
  Rmax_abs [1; -2] <> 0 /\
  / 2 ^ 1021 <= Rabs (1 / 2) <= 2 ^ 1022 /\
  / 2 ^ 1021 <= Rabs (1 / 2 / Rmax_abs [1; -2]) <= 2 ^ 1022 /\
  exists c ys,
    Rounded.rnd Rounded.saturating (1 / 2 / Rmax_abs [1; -2]) = Fin c /\
    Rabs (c - 1 / 2 / Rmax_abs [1; -2])
      <= / 2 ^ 53 * Rabs (1 / 2 / Rmax_abs [1; -2]) /\
    Rounded.normalize Rounded.saturating (map Fin [1; -2]) (Fin (1 / 2))
      = Ok (map Fin ys) /\
    length ys = length [1; -2] /\
    (forall i x y, nth_error [1; -2] i = Some x -> nth_error ys i = Some y ->
                   Rounded.rnd Rounded.saturating (c * x) = Fin y) /\
    Rabs (Rmax_abs ys - Rabs (1 / 2)) <= / 2 ^ 51 * Rabs (1 / 2).
Proof.
  assert (H : Rmax_abs [1; -2] <> 0) by (rewrite Rmax_abs_one_two; lra).
  assert (Ht : / 2 ^ 1021 <= Rabs (1 / 2) <= 2 ^ 1022)
    by (apply normal_range_facts; lra).
  assert (Hq : / 2 ^ 1021 <= Rabs (1 / 2 / Rmax_abs [1; -2]) <= 2 ^ 1022)
    by (apply normal_range_facts; rewrite Rmax_abs_one_two; lra).
  split; [exact H|]. split; [exact Ht|]. split; [exact Hq|].
  exact (normalize_peak_within_rounding Rounded.saturating [1; -2] (1 / 2)
           H Ht Hq).
Defined.

Lemma rounded_nonpositive_duration_witness :
  - 2 ^ 63 <= -1 * 44100 <= 0 /\
  Rounded.generate_sample_time_points Rounded.saturating (Fin (-1)) = Ok [] /\
  (forall freq amplitude,
      Rounded.sine Rounded.saturating freq amplitude (Fin (-1)) = Ok []) /\
  (forall freq amplitude,
      Rounded.square Rounded.saturating freq amplitude (Fin (-1)) = Ok []).
Proof.
  assert (H : - 2 ^ 63 <= -1 * 44100 <= 0).
  { assert (H16 : 2 ^ 16 <= 2 ^ 63) by (apply Rle_pow; [lra | lia]).
    assert (E16 : 2 ^ 16 = 65536) by (simpl; lra).
    split; lra. }
  split; [exact H|].
  exact (proj1 (rounded_nonpositive_duration Rounded.saturating (-1)) H).
Defined.

Lemma rounded_sine_bounded_by_amplitude_witness :
  Rounded.representable Rounded.saturating (1 / 2) /\
  Rabs 440 <= 2 ^ 900 /\
  0 <= 1 * 44100 <= IZR (Rounded.max_samples Rounded.saturating) /\
  exists ys,
    Rounded.sine Rounded.saturating (Fin 440) (Fin (1 / 2)) (Fin 1)
      = Ok (map Fin ys) /\
    Forall (fun y => Rabs y <= Rabs (1 / 2)) ys.
Proof.
  split; [exact half_is_representable|].
  split; [exact concert_pitch_is_small|].
  split; [exact one_second_from_zero|].
  exact (rounded_sine_bounded_by_amplitude Rounded.saturating
           440 (1 / 2) 1 half_is_representable concert_pitch_is_small
           one_second_from_zero).
Defined.

Lemma rounded_encoded_frames_layout_witness :
  (0 < min_length [[Fin 0; Fin 0]; [Fin 1; Fin 1]])%nat /\
  exists y,
    Rounded.rnd Rounded.saturating (clipped 1 * 32767) = Fin y /\
    nth_error (Rounded.convert_to_bytes Rounded.saturating (fun _ => 0%Z)
                 (merge_channels [[Fin 0; Fin 0]; [Fin 1; Fin 1]]))
              (2 * (0 * 2 + 1))
      = Some (byte_of_Z (Rtrunc y mod 65536)) /\
    nth_error (Rounded.convert_to_bytes Rounded.saturating (fun _ => 0%Z)
                 (merge_channels [[Fin 0; Fin 0]; [Fin 1; Fin 1]]))
              (2 * (0 * 2 + 1) + 1)
      = Some (byte_of_Z (Rtrunc y mod 65536 / 256)).
Proof.
  assert (H : (0 < min_length [[Fin 0; Fin 0]; [Fin 1; Fin 1]])%nat)
    by (apply Nat.lt_0_succ).
  split; [exact H|].
  exact (proj2 (rounded_encoded_frames_layout Rounded.saturating
                  (fun _ => 0%Z) [[Fin 0; Fin 0]; [Fin 1; Fin 1]])
               0%nat 1%nat [Fin 1; Fin 1] (Fin 1) (clipped 1)
               H eq_refl eq_refl eq_refl).
Defined.

Lemma one_is_representable : Rounded.representable Rounded.saturating 1.
Proof.
  apply Rounded.saturating_exact. rewrite Rabs_R1. apply pow_R1_Rle. lra.
Qed.

Lemma rounded_time_points_span_duration_witness :
  Rounded.representable Rounded.saturating 1 /\
  0 <= 1 * 44100 <= IZR (Rounded.max_samples Rounded.saturating) /\
  exists y ts,
    Rounded.rnd Rounded.saturating (1 * 44100) = Fin y /\
    Rounded.generate_sample_time_points Rounded.saturating (Fin 1)
      = Ok (map Fin ts) /\
    (forall i, (exists t, nth_error ts i = Some t) <-> INR i < y) /\
    (forall i t, nth_error ts i = Some t ->
       Rounded.rnd Rounded.saturating (INR i / 44100) = Fin t /\
       INR i < 1 * 44100 /\ 0 <= t <= 1) /\
    (forall i j ti tj, (i <= j)%nat ->
       nth_error ts i = Some ti -> nth_error ts j = Some tj -> ti <= tj).
Proof.
  split; [exact one_is_representable|].
  split; [exact one_second_from_zero|].
  exact (rounded_time_points_span_duration Rounded.saturating 1
           one_is_representable one_second_from_zero).
Defined.

Lemma rounded_square_follows_sign_of_sine_witness :
  Rounded.representable Rounded.saturating (1 / 2) /\
  Rabs 440 <= 2 ^ 900 /\
  0 <= 1 * 44100 <= IZR (Rounded.max_samples Rounded.saturating) /\
  exists ss ys,
    Rounded.sine Rounded.saturating (Fin 440) (Fin 1) (Fin 1)
      = Ok (map Fin ss) /\
    Rounded.square Rounded.saturating (Fin 440) (Fin (1 / 2)) (Fin 1)
      = Ok (map Fin ys) /\
    length ys = length ss /\
    forall i s y, nth_error ss i = Some s -> nth_error ys i = Some y ->
      -1 <= s <= 1 /\
      (s < 0 -> y = - (1 / 2)) /\ (s = 0 -> y = 0) /\ (0 < s -> y = 1 / 2).
Proof.
  split; [exact half_is_representable|].
  split; [exact concert_pitch_is_small|].
  split; [exact one_second_from_zero|].
  exact (rounded_square_follows_sign_of_sine Rounded.saturating
           440 (1 / 2) 1 half_is_representable concert_pitch_is_small
           one_second_from_zero).
Defined.
